(** * Vault provider: authentication negotiation (pkg/provider/vault/auth.go)

    A shallow embedding of [setAuth], [createServiceAccountToken],
    [checkToken], [revokeTokenIfValid] and [useAuthNamespace], followed by
    the properties of the token validator, the namespace scope, the
    strategy chain and the revoker.

    Go values are modelled as follows.
    - [error] values are a small inductive type; a Go [error] that may be
      [nil] is an [option error].
    - [map[string]interface{}] is a [gmap string value], where [value]
      lists the dynamic types a JSON document decoded with [UseNumber]
      can hold.
    - [int64] is [Z]; [strconv.ParseInt] checks the range explicitly.
    - A function that may panic returns a [result].
    - Code that calls collaborators runs in a small monad over the
      [client] that also collects the calls it makes, in order. *)

From Stdlib Require Import ZArith String Ascii List Bool Lia.
From stdpp Require Import base option list strings gmap.

Local Open Scope Z_scope.

(** ** Errors *)

(** The two sentinel errors of [strconv]. *)
Inductive num_error : Type :=
| ErrSyntax
| ErrRange.

(** [errors.New], [fmt.Errorf] with one [%w] verb, and [strconv.NumError]. *)
Inductive error : Type :=
| errors_New (text : string)
| fmt_Errorf (format : string) (args : list string) (wrapped : error)
| NumError (Func Num : string) (Err : num_error).

Definition errAuthFormat : string :=
  "cannot initialize Vault client: no valid auth method specified".
Definition errVaultToken : string :=
  "cannot parse Vault authentication token: %w".
Definition errGetKubeSATokenRequest : string :=
  "cannot request Kubernetes service account token for service account %q: %w".
Definition errVaultRevokeToken : string :=
  "error while revoking token: %w".

(** A run-time panic of the Go program. *)
Inductive panic : Type :=
| NilDereference
| InterfaceConversion.

Inductive result (A : Type) : Type :=
| Val (a : A)
| Panicked (p : panic).
Arguments Val {A} a.
Arguments Panicked {A} p.

(** ** strconv.ParseInt(s, 10, 64), behind json.Number.Int64 *)

Module strconv.

Definition maxUint64 : Z := 2 ^ 64 - 1.

Definition is_digit (c : ascii) : bool :=
  let n := Z.of_nat (nat_of_ascii c) in (48 <=? n) && (n <=? 57).

Definition digit (c : ascii) : Z := Z.of_nat (nat_of_ascii c) - 48.

(** The digit loop of [ParseUint] for base 10 and 64 bits: [inl n] is the
    number read, [inr e] the error met first. *)
Fixpoint digits (s : string) (n : Z) : Z + num_error :=
  match s with
  | EmptyString => inl n
  | String c s' =>
      if negb (is_digit c) then inr ErrSyntax
      else if maxUint64 / 10 + 1 <=? n then inr ErrRange
      else
        let n1 := n * 10 + digit c in
        if maxUint64 <? n1 then inr ErrRange else digits s' n1
  end.

Definition ParseUint (s : string) : Z * option num_error :=
  match s with
  | EmptyString => (0, Some ErrSyntax)
  | _ =>
      match digits s 0 with
      | inl n => (n, None)
      | inr ErrRange => (maxUint64, Some ErrRange)
      | inr ErrSyntax => (0, Some ErrSyntax)
      end
  end.

Definition ParseInt (s0 : string) : Z * option error :=
  match s0 with
  | EmptyString => (0, Some (NumError "ParseInt" s0 ErrSyntax))
  | String c rest =>
      let neg := bool_decide (c = "-"%char) in
      let s :=
        if bool_decide (c = "+"%char) then rest
        else if neg then rest else s0 in
      let '(un, err) := ParseUint s in
      match err with
      | Some ErrSyntax => (0, Some (NumError "ParseInt" s0 ErrSyntax))
      | _ =>
          let cutoff := 2 ^ 63 in
          if negb neg && (cutoff <=? un)
          then (cutoff - 1, Some (NumError "ParseInt" s0 ErrRange))
          else if neg && (cutoff <? un)
          then (- cutoff, Some (NumError "ParseInt" s0 ErrRange))
          else (if neg then - un else un, None)
      end
  end.

End strconv.

(** ** Lookup responses *)

(** What an [interface{}] of a decoded response can hold. *)
#[local] Unset Elimination Schemes.
Inductive value : Type :=
| VNil
| VBool (b : bool)
| VNumber (n : string)
| VString (s : string)
| VArray (items : list value)
| VObject (fields : list (string * value)).
#[local] Set Elimination Schemes.

(** [ttl.(json.Number).Int64()] *)
Definition Int64 (n : string) : Z * option error := strconv.ParseInt n.

(** The [Data] field of vault's [api.Secret], the only one read here. *)
Record Secret : Type := { Data : gmap string value }.

(** [fmt]'s [%v] of a [json.Number] prints its text. *)
Definition show_number (n : string) : string := n.

(** ** Store configuration (apis/externalsecrets/v1) *)

(** [VaultAuth]: the auth namespace is the only field this file reads;
    the mechanism sub-configurations are read by the strategies alone. *)
Module VaultAuth.
Record t : Type := { Namespace : option string }.
End VaultAuth.

(** [VaultProvider], the type of [c.store]. *)
Module VaultProvider.
Record t : Type := {
  Namespace : option string;
  Auth : option VaultAuth.t
}.
End VaultProvider.

(** ** The client *)

(** Modelled from the spec: the implementation behind the interface
    [util.Client] ([c.client]) is not in this file. By the specification
    (sections 3 and 6) the client handle holds the credential, an opaque
    token string that [ClearToken] empties, and has a namespace setter;
    the handle is the namespace its requests are sent under and the token
    they carry. *)
Record Handle : Type := {
  namespace : string;
  token : string
}.

(** The mechanisms of the chain, in the order [setAuth] tries them. *)
Inductive mechanism : Type :=
| SecretKey | AppRole | Kubernetes | Ldap | UserPass | Jwt | Cert | Iam.

#[global] Instance mechanism_eq_dec : EqDecision mechanism.
Proof. solve_decision. Defined.

(** The operations reported to [metrics.ObserveAPICall]. *)
Inductive api_call : Type :=
| CallHCVaultLookupSelf
| CallHCVaultRevokeSelf.

(** What a run does to its collaborators, in order. [EvTryAcquire] records
    a strategy call together with the pair it returned; [EvRunDeferred]
    marks the call of the function deferred by [setAuth]. *)
Inductive event : Type :=
| EvSetNamespace (ns : string)
| EvLookupSelf (ns tok : string)
| EvRevokeSelf (ns tok : string)
| EvClearToken
| EvObserveAPICall (call : api_call) (err : option error)
| EvLogInfo (msg : string) (args : list string)
| EvTryAcquire (m : mechanism) (attempted : bool) (err : option error)
| EvRunDeferred.

(** Modelled from the spec: the eight strategies ([setSecretKeyToken] to
    [setIamAuthToken]) live in sibling files. By the specification (4.3)
    each returns [(attempted, err)], and (4.4) the side effects are
    limited to the credential of the session: a strategy reads the store
    and the active namespace and may replace the token of the handle. [W]
    is everything else it can touch: the backend, the cluster, the TLS
    settings of [cfg]. *)
Definition strategy (W : Type) : Type :=
  VaultProvider.t -> string -> string -> W -> (bool * option error) * (string * W).

(** The collaborators of this file: the two backend calls made through
    [util.Token], answered from the namespace and the token of the request
    and the state of the world, and the strategies. *)
Class Collaborators (W Config : Type) : Type := {
  LookupSelfWithContext :
    string -> string -> W -> (option Secret * option error) * W;
  RevokeSelfWithContext :
    string -> string -> W -> option error * W;
  setSecretKeyToken : strategy W;
  setAppRoleToken : strategy W;
  setKubernetesAuthToken : strategy W;
  setLdapAuthToken : strategy W;
  setUserPassAuthToken : strategy W;
  setJwtAuthToken : strategy W;
  setCertAuthToken : Config -> strategy W;
  setIamAuthToken : strategy W
}.

Section Client.

Context {W Config : Type} {collab : Collaborators W Config}.

(** The Go [client]: its store, its handle, and the world around it. *)
Record client : Type := {
  store : option VaultProvider.t;
  handle : Handle;
  world : W
}.

Record outcome (A : Type) : Type := {
  res : result A;
  final : client;
  emitted : list event
}.
Arguments res {A} o.
Arguments final {A} o.
Arguments emitted {A} o.

Definition M (A : Type) : Type := client -> outcome A.

Definition ret {A} (a : A) : M A :=
  fun c => {| res := Val a; final := c; emitted := [] |}.

(** A panic ends the run; what was done before it stays done. *)
Definition bind {A B} (m : M A) (k : A -> M B) : M B :=
  fun c =>
    let o := m c in
    match res o with
    | Val a =>
        let o' := k a (final o) in
        {| res := res o'; final := final o';
           emitted := emitted o ++ emitted o' |}
    | Panicked p =>
        {| res := Panicked p; final := final o; emitted := emitted o |}
    end.

Definition raise {A} (p : panic) : M A :=
  fun c => {| res := Panicked p; final := c; emitted := [] |}.

Definition emit (e : event) : M unit :=
  fun c => {| res := Val tt; final := c; emitted := [e] |}.

(** [defer f(); body]: [f] runs when [body] returns and when it panics. *)
Definition defer {A} (f : M unit) (body : M A) : M A :=
  fun c =>
    let o := body c in
    let d := bind (emit EvRunDeferred) (fun _ => f) (final o) in
    {| res := match res d with Val _ => res o | Panicked p => Panicked p end;
       final := final d;
       emitted := emitted o ++ emitted d |}.

End Client.

Arguments client W : clear implicits.
Arguments outcome W A : clear implicits.
Arguments M W A : clear implicits.
Arguments res {W A} o.
Arguments final {W A} o.
Arguments emitted {W A} o.

Declare Scope go_scope.
Delimit Scope go_scope with go.
Notation "x <- m ; k" := (bind m (fun x => k))
  (at level 20, m at level 100, k at level 200, only parsing) : go_scope.
Notation "' pat <- m ; k" := (bind m (fun x => match x with pat => k end))
  (at level 20, pat pattern, m at level 100, k at level 200, only parsing)
  : go_scope.
Notation "m ;; k" := (bind m (fun _ => k))
  (at level 100, k at level 200, only parsing, right associativity) : go_scope.

(** ** The functions of auth.go *)

Section Auth.

Context {W Config : Type} {collab : Collaborators W Config}.

Local Open Scope go_scope.

Local Abbreviation M := (M W).

(** *** The handle, as [util.Client] exposes it *)

Definition with_handle (h : Handle) (c : client W) : client W :=
  {| store := store c; handle := h; world := world c |}.

Definition with_world (w : W) (c : client W) : client W :=
  {| store := store c; handle := handle c; world := w |}.

(** [c.client.SetNamespace(ns)] *)
Definition SetNamespace (ns : string) : M unit :=
  fun c =>
    {| res := Val tt;
       final := with_handle {| namespace := ns; token := token (handle c) |} c;
       emitted := [EvSetNamespace ns] |}.

(** [c.client.Token()] *)
Definition Token : M string :=
  fun c => {| res := Val (token (handle c)); final := c; emitted := [] |}.

(** [client.ClearToken()] *)
Definition ClearToken : M unit :=
  fun c =>
    {| res := Val tt;
       final := with_handle {| namespace := namespace (handle c); token := "" |} c;
       emitted := [EvClearToken] |}.

(** [token.LookupSelfWithContext(ctx)]: a request under the namespace and
    the token of the handle. *)
Definition LookupSelf : M (option Secret * option error) :=
  fun c =>
    let ns := namespace (handle c) in
    let tok := token (handle c) in
    let '(r, w) := LookupSelfWithContext ns tok (world c) in
    {| res := Val r; final := with_world w c; emitted := [EvLookupSelf ns tok] |}.

(** [client.AuthToken().RevokeSelfWithContext(ctx, tok)] *)
Definition RevokeSelf (tok : string) : M (option error) :=
  fun c =>
    let ns := namespace (handle c) in
    let '(r, w) := RevokeSelfWithContext ns tok (world c) in
    {| res := Val r; final := with_world w c; emitted := [EvRevokeSelf ns tok] |}.

(** [metrics.ObserveAPICall(constants.ProviderHCVault, call, err)] *)
Definition ObserveAPICall (call : api_call) (err : option error) : M unit :=
  emit (EvObserveAPICall call err).

(** [c.log.V(1).Info(msg, args...)] *)
Definition LogInfo (msg : string) (args : list string) : M unit :=
  emit (EvLogInfo msg args).

(** A call [tokenExists, err = setXxxToken(ctx, c)] of a strategy. *)
Definition tryAcquire (m : mechanism) (f : strategy W) : M (bool * option error) :=
  fun c =>
    match store c with
    | None => raise NilDereference c
    | Some st =>
        let '((attempted, err), (tok, w)) :=
          f st (namespace (handle c)) (token (handle c)) (world c) in
        {| res := Val (attempted, err);
           final := {| store := store c;
                       handle := {| namespace := namespace (handle c); token := tok |};
                       world := w |};
           emitted := [EvTryAcquire m attempted err] |}
    end.

(** [t.(string)] *)
Definition as_string (v : value) : M string :=
  match v with
  | VString s => ret s
  | _ => raise InterfaceConversion
  end.

(** [ttl.(json.Number)] *)
Definition as_Number (v : value) : M string :=
  match v with
  | VNumber n => ret n
  | _ => raise InterfaceConversion
  end.

(** [expireTime != nil] *)
Definition not_nil (v : value) : bool :=
  match v with
  | VNil => false
  | _ => true
  end.

(** *** checkToken *)

(** [checkToken] does a lookup and checks if the provided token exists. *)
Definition checkToken : M (bool * option error) :=
  '(resp, err) <- LookupSelf;
  ObserveAPICall CallHCVaultLookupSelf err;;
  match err with
  | Some e => ret (false, Some e)
  | None =>
  match resp with
  | None => ret (false, Some (errors_New "no response nor error for token lookup"))
  | Some resp =>
  match Data resp !! "type" with
  | None => ret (false, Some (errors_New "could not assert token type"))
  | Some t =>
  tokenType <- as_string t;
  if bool_decide (tokenType = "batch") then ret (false, None) else
  match Data resp !! "ttl" with
  | None => ret (false, Some (errors_New "no TTL found in response"))
  | Some ttl =>
  n <- as_Number ttl;
  let '(ttlInt, err) := Int64 n in
  match err with
  | Some e =>
      ret (false, Some (fmt_Errorf "invalid token TTL: %v: %w" [show_number n] e))
  | None =>
  match Data resp !! "expire_time" with
  | None => ret (false, Some (errors_New "no expiration time found in response"))
  | Some expireTime =>
  if (ttlInt <? 60) && not_nil expireTime
  then
    (* Treat expirable tokens that are about to expire as already expired. *)
    ret (false, None)
  else ret (true, None)
  end end end end end end.

(** *** revokeTokenIfValid *)

Definition revokeTokenIfValid : M (option error) :=
  '(valid, err) <- checkToken;
  match err with
  | Some e => ret (Some (fmt_Errorf errVaultRevokeToken [] e))
  | None =>
      if valid then
        tok <- Token;
        err <- RevokeSelf tok;
        ObserveAPICall CallHCVaultRevokeSelf err;;
        match err with
        | Some e => ret (Some (fmt_Errorf errVaultRevokeToken [] e))
        | None => ClearToken;; ret None
        end
      else ret None
  end.

(** *** useAuthNamespace *)

(** The function [useAuthNamespace] returns when it has switched the
    namespace. *)
Definition restore_to (ns : string) : M unit :=
  LogInfo "Restoring client namespace to namespace=%s" [ns];;
  SetNamespace ns.

(** The function it returns otherwise. *)
Definition no_op : M unit := ret tt.

Definition useAuthNamespace : M (M unit) :=
  fun c =>
  let ns :=
    match store c with
    | Some st =>
        match VaultProvider.Namespace st with
        | Some n => n
        | None => ""
        end
    | None => ""
    end in
  match store c with
  | None => raise NilDereference c
  | Some st =>
      match VaultProvider.Auth st with
      | Some auth =>
          match VaultAuth.Namespace auth with
          | Some authNs =>
              (* Different Auth Vault Namespace than Secret Vault Namespace:
                 switch namespaces then switch back at the end *)
              if bool_decide (authNs <> ns) then
                (LogInfo "Using namespace=%s for the vault login" [authNs];;
                 SetNamespace authNs;;
                 ret (restore_to ns)) c
              else ret no_op c
          | None => ret no_op c
          end
      | None => ret no_op c
      end
  end.

(** *** setAuth *)

(** [setAuth] gets a new token using the configured mechanism. If there's
    already a valid token, does nothing. *)
Definition setAuth (cfg : Config) : M (option error) :=
  fun c =>
  match store c with
  | None => raise NilDereference c
  | Some st =>
  match VaultProvider.Auth st with
  | None => ret None c
  | Some _ =>
    (match VaultProvider.Namespace st with
    | Some ns => SetNamespace ns
    | None => ret tt
    end;;
    (* Switch to auth namespace if different from the provider namespace *)
    restoreNamespace <- useAuthNamespace;
    defer restoreNamespace (
      tok <- Token;
      '(tokenExists, err) <-
        (if bool_decide (tok <> "") then checkToken else ret (false, None));
      if tokenExists then
        LogInfo "Re-using existing token" [];; ret err
      else
      '(tokenExists, err) <- tryAcquire SecretKey setSecretKeyToken;
      if tokenExists then
        LogInfo "Set token from secret" [];; ret err
      else
      '(tokenExists, err) <- tryAcquire AppRole setAppRoleToken;
      if tokenExists then
        LogInfo "Retrieved new token using AppRole auth" [];; ret err
      else
      '(tokenExists, err) <- tryAcquire Kubernetes setKubernetesAuthToken;
      if tokenExists then
        LogInfo "Retrieved new token using Kubernetes auth" [];; ret err
      else
      '(tokenExists, err) <- tryAcquire Ldap setLdapAuthToken;
      if tokenExists then
        LogInfo "Retrieved new token using LDAP auth" [];; ret err
      else
      '(tokenExists, err) <- tryAcquire UserPass setUserPassAuthToken;
      if tokenExists then
        LogInfo "Retrieved new token using userPass auth" [];; ret err
      else
      '(tokenExists, err) <- tryAcquire Jwt setJwtAuthToken;
      if tokenExists then
        LogInfo "Retrieved new token using JWT auth" [];; ret err
      else
      '(tokenExists, err) <- tryAcquire Cert (setCertAuthToken cfg);
      if tokenExists then
        LogInfo "Retrieved new token using certificate auth" [];; ret err
      else
      '(tokenExists, err) <- tryAcquire Iam setIamAuthToken;
      if tokenExists then
        LogInfo "Retrieved new token using IAM auth" [];; ret err
      else
      ret (Some (errors_New errAuthFormat)))) c
  end end.

End Auth.

(** ** createServiceAccountToken *)

(** [esmeta.ServiceAccountSelector] *)
Module ServiceAccountSelector.
Record t : Type := {
  Name : string;
  Namespace : option string;
  Audiences : list string
}.
End ServiceAccountSelector.

(** [authv1.TokenRequest]: the namespace of its [ObjectMeta], the two
    fields of its [Spec] set here, and the token of its [Status]. *)
Module TokenRequest.
Record t : Type := {
  Namespace : string;
  Audiences : list string;
  ExpirationSeconds : option Z;
  Token : string
}.
End TokenRequest.

(** Modelled from the spec: the constant [esv1.ClusterSecretStoreKind] is
    declared outside this file; it names the cluster-wide store kind. *)
Definition ClusterSecretStoreKind : string := "ClusterSecretStore".

(** The call [corev1Client.ServiceAccounts(ns).CreateToken(ctx, name,
    tokenRequest, opts)] as the function made it. *)
Record create_token_call : Type := {
  call_namespace : string;
  call_name : string;
  call_request : TokenRequest.t
}.

Section ServiceAccountToken.

(** The cluster: what [CreateToken] answers to a call. *)
Variable CreateToken :
  string -> string -> TokenRequest.t -> option TokenRequest.t * option error.

(** The result of [createServiceAccountToken] together with the call it
    made. *)
Definition createServiceAccountToken
    (storeKind : string)
    (namespace : string)
    (serviceAccountRef : ServiceAccountSelector.t)
    (additionalAud : list string)
    (expirationSeconds : Z)
  : create_token_call * result (string * option error) :=
  let audiences := ServiceAccountSelector.Audiences serviceAccountRef in
  let audiences :=
    if (0 <? length additionalAud)%nat
    then audiences ++ additionalAud
    else audiences in
  let tokenRequest :=
    {| TokenRequest.Namespace := namespace;
       TokenRequest.Audiences := audiences;
       TokenRequest.ExpirationSeconds := Some expirationSeconds;
       TokenRequest.Token := "" |} in
  let tokenRequest :=
    if bool_decide (storeKind = ClusterSecretStoreKind) then
      match ServiceAccountSelector.Namespace serviceAccountRef with
      | Some ns =>
          {| TokenRequest.Namespace := ns;
             TokenRequest.Audiences := TokenRequest.Audiences tokenRequest;
             TokenRequest.ExpirationSeconds :=
               TokenRequest.ExpirationSeconds tokenRequest;
             TokenRequest.Token := TokenRequest.Token tokenRequest |}
      | None => tokenRequest
      end
    else tokenRequest in
  let name := ServiceAccountSelector.Name serviceAccountRef in
  let call :=
    {| call_namespace := TokenRequest.Namespace tokenRequest;
       call_name := name;
       call_request := tokenRequest |} in
  let '(tokenResponse, err) :=
    CreateToken (TokenRequest.Namespace tokenRequest) name tokenRequest in
  (call,
   match err with
   | Some e => Val ("", Some (fmt_Errorf errGetKubeSATokenRequest [name] e))
   | None =>
       match tokenResponse with
       | Some r => Val (TokenRequest.Token r, None)
       | None => Panicked NilDereference
       end
   end).

End ServiceAccountToken.

(** ** Views used by the statements below *)

(** The operating namespace: [*c.store.Namespace], or the empty string
    when none is set (the [ns] of [useAuthNamespace]). *)
Definition operating_namespace (st : VaultProvider.t) : string :=
  match VaultProvider.Namespace st with
  | Some n => n
  | None => ""
  end.

(** The namespace of the handle once [setAuth] has run lines 50 to 55, that
    is, the namespace its lookup and its strategies run under. *)
Definition login_namespace (st : VaultProvider.t) (h : Handle) : string :=
  let entered :=
    match VaultProvider.Namespace st with
    | Some n => n
    | None => namespace h
    end in
  match VaultProvider.Auth st with
  | Some auth =>
      match VaultAuth.Namespace auth with
      | Some authNs =>
          if bool_decide (authNs <> operating_namespace st) then authNs else entered
      | None => entered
      end
  | None => entered
  end.

(** The strategy calls of a run, with what each returned. *)
Definition report_of (e : event) : option (mechanism * bool * option error) :=
  match e with
  | EvTryAcquire m attempted err => Some (m, attempted, err)
  | _ => None
  end.

Definition reports (evs : list event) : list (mechanism * bool * option error) :=
  omap report_of evs.

Definition mechanism_of (r : mechanism * bool * option error) : mechanism :=
  r.1.1.

(** How often the deferred function of [setAuth] was called. *)
Definition deferred_run_of (e : event) : option unit :=
  match e with
  | EvRunDeferred => Some tt
  | _ => None
  end.

Definition deferred_runs (evs : list event) : nat :=
  length (omap deferred_run_of evs).

(** The run ended by re-using the token it held. *)
Definition reused (evs : list event) : Prop :=
  EvLogInfo "Re-using existing token" [] ∈ evs.

(** The fixed priority order of the chain. *)
Definition priority : list mechanism :=
  [SecretKey; AppRole; Kubernetes; Ldap; UserPass; Jwt; Cert; Iam].

(** The message [setAuth] logs after a strategy that reported an attempt. *)
Definition acquired_message (m : mechanism) : string :=
  match m with
  | SecretKey => "Set token from secret"
  | AppRole => "Retrieved new token using AppRole auth"
  | Kubernetes => "Retrieved new token using Kubernetes auth"
  | Ldap => "Retrieved new token using LDAP auth"
  | UserPass => "Retrieved new token using userPass auth"
  | Jwt => "Retrieved new token using JWT auth"
  | Cert => "Retrieved new token using certificate auth"
  | Iam => "Retrieved new token using IAM auth"
  end.

(** The reports a walk of the strategies [ms] can leave, and the error it
    returns: it stops at the first report of an attempt and returns that
    strategy's error, and fails when every strategy declined. *)
Inductive chain_run :
  list mechanism -> list (mechanism * bool * option error) -> option error -> Prop :=
| chain_none :
    chain_run [] [] (Some (errors_New errAuthFormat))
| chain_attempted m ms err :
    chain_run (m :: ms) [(m, true, err)] err
| chain_declined m ms err calls r :
    chain_run ms calls r ->
    chain_run (m :: ms) ((m, false, err) :: calls) r.

Section Chain.

Context {W Config : Type} {collab : Collaborators W Config}.
Local Open Scope go_scope.

(** What the lookup of [checkToken] answers for the client [c]. *)
Definition lookup_answer (c : client W) : option Secret * option error :=
  (LookupSelfWithContext (namespace (handle c)) (token (handle c)) (world c)).1.

(** The client as [setAuth] has it once lines 50 to 55 have run. *)
Definition entered (st : VaultProvider.t) (c : client W) : client W :=
  with_handle
    {| namespace := login_namespace st (handle c); token := token (handle c) |} c.

Definition strategy_of (cfg : Config) (m : mechanism) : strategy W :=
  match m with
  | SecretKey => setSecretKeyToken
  | AppRole => setAppRoleToken
  | Kubernetes => setKubernetesAuthToken
  | Ldap => setLdapAuthToken
  | UserPass => setUserPassAuthToken
  | Jwt => setJwtAuthToken
  | Cert => setCertAuthToken cfg
  | Iam => setIamAuthToken
  end.

(** The chain as the specification words it (4.4, steps 4 and 5): walk
    the strategies in order; on the first [attempted = true] return its
    error; if none was attempted, fail. [setAuth] is compared with it
    below. *)
Fixpoint walk (cfg : Config) (ms : list mechanism) : M W (option error) :=
  match ms with
  | [] => ret (Some (errors_New errAuthFormat))
  | m :: ms' =>
      '(attempted, err) <- tryAcquire m (strategy_of cfg m);
      if attempted then LogInfo (acquired_message m) [];; ret err
      else walk cfg ms'
  end.

(** [setAuth] from line 58 on, with the chain replaced by [walk]. *)
Definition negotiate (cfg : Config) : M W (option error) :=
  tok <- Token;
  '(tokenExists, err) <-
    (if bool_decide (tok <> "") then checkToken else ret (false, None));
  if tokenExists then LogInfo "Re-using existing token" [];; ret err
  else walk cfg priority.

End Chain.

(** ** Concrete collaborators *)

Module Fixture.

(** A renewable service token with an hour to live. *)
Definition fresh : Secret :=
  {| Data := {[ "type" := VString "service";
                "ttl" := VNumber "3600";
                "expire_time" := VString "2026-01-01T00:00:00Z" ]} |}.

(** The same token 59 seconds before it expires. *)
Definition expiring : Secret :=
  {| Data := {[ "type" := VString "service";
                "ttl" := VNumber "59";
                "expire_time" := VString "2026-01-01T00:00:00Z" ]} |}.

(** A root token: no time to live, no expiration time. *)
Definition root : Secret :=
  {| Data := {[ "type" := VString "service";
                "ttl" := VNumber "0";
                "expire_time" := VNil ]} |}.

(** A batch token with an hour to live. *)
Definition batch : Secret :=
  {| Data := {[ "type" := VString "batch";
                "ttl" := VNumber "3600";
                "expire_time" := VString "2026-01-01T00:00:00Z" ]} |}.

(** A batch token whose lookup response carries no [ttl]. *)
Definition batch_no_ttl : Secret :=
  {| Data := {[ "type" := VString "batch";
                "expire_time" := VString "2026-01-01T00:00:00Z" ]} |}.

(** Responses that lack one field. *)
Definition no_type : Secret :=
  {| Data := {[ "ttl" := VNumber "3600";
                "expire_time" := VString "2026-01-01T00:00:00Z" ]} |}.
Definition no_ttl : Secret :=
  {| Data := {[ "type" := VString "service";
                "expire_time" := VString "2026-01-01T00:00:00Z" ]} |}.
Definition no_expire_time : Secret :=
  {| Data := {[ "type" := VString "service"; "ttl" := VNumber "3600" ]} |}.

(** A lookup as the server answers it: [resp] for a request that carries
    a token, an error for one that carries none. *)
Definition strict (resp : Secret) (tok : string)
  : option Secret * option error :=
  if bool_decide (tok = "")
  then (None, Some (errors_New "missing client token"))
  else (Some resp, None).

(** A lookup as a test double may answer it: a request without a token
    is answered like one for a token about to expire. *)
Definition lenient (resp : Secret) (tok : string)
  : option Secret * option error :=
  if bool_decide (tok = "") then (Some expiring, None) else (Some resp, None).

(** A backend that answers lookups by [lookup] and revocations by
    [revoke_err]; the mechanisms in [configured] log in, with the outcome
    [login_err]. *)
Definition login (configured : list mechanism) (login_err : option error)
    (m : mechanism) : strategy unit :=
  fun _ _ tok w =>
    if bool_decide (m ∈ configured) then
      ((true, login_err),
       (match login_err with None => "s.granted" | Some _ => tok end, w))
    else ((false, None), (tok, w)).

Definition backend (lookup : string -> option Secret * option error)
    (revoke_err : option error)
    (configured : list mechanism) (login_err : option error)
  : Collaborators unit unit :=
  {| LookupSelfWithContext := fun _ tok w => (lookup tok, w);
     RevokeSelfWithContext := fun _ _ w => (revoke_err, w);
     setSecretKeyToken := login configured login_err SecretKey;
     setAppRoleToken := login configured login_err AppRole;
     setKubernetesAuthToken := login configured login_err Kubernetes;
     setLdapAuthToken := login configured login_err Ldap;
     setUserPassAuthToken := login configured login_err UserPass;
     setJwtAuthToken := login configured login_err Jwt;
     setCertAuthToken := fun _ => login configured login_err Cert;
     setIamAuthToken := login configured login_err Iam |}.

(** A store with operating namespace [ns] and auth namespace [authNs]. *)
Definition provider (ns authNs : option string) : VaultProvider.t :=
  {| VaultProvider.Namespace := ns;
     VaultProvider.Auth := Some {| VaultAuth.Namespace := authNs |} |}.

Definition session (st : VaultProvider.t) (ns tok : string) : client unit :=
  {| store := Some st;
     handle := {| namespace := ns; token := tok |};
     world := tt |}.

(** A cluster that grants every token request. *)
Definition grant (ns name : string) (req : TokenRequest.t)
  : option TokenRequest.t * option error :=
  (Some {| TokenRequest.Namespace := ns;
           TokenRequest.Audiences := TokenRequest.Audiences req;
           TokenRequest.ExpirationSeconds := TokenRequest.ExpirationSeconds req;
           TokenRequest.Token := "eyJ.sa.token" |}, None).

(** The scenarios of the examples. [vault] answers lookups with a fresh
    token and has AppRole and Kubernetes configured; [unconfigured] has
    no mechanism configured; [rejecting] refuses to revoke; [double]
    answers a lookup without a token. *)
Definition vault : Collaborators unit unit :=
  backend (strict fresh) None [AppRole; Kubernetes] None.
Definition unconfigured : Collaborators unit unit :=
  backend (strict expiring) None [] None.
Definition answering (resp : Secret) : Collaborators unit unit :=
  backend (strict resp) None [] None.
Definition double : Collaborators unit unit :=
  backend (lenient fresh) None [] None.

(** A client that holds a token, with operating namespace "team-a" and
    auth namespace "login". *)
Definition holder : client unit :=
  session (provider (Some "team-a") (Some "login")) "" "s.held".

(** A client without a token whose store names no namespace at all and
    whose handle was created under the namespace "team-a". *)
Definition newcomer : client unit :=
  session (provider None None) "team-a" "".

(** A client whose store configures no auth. *)
Definition anonymous : client unit :=
  {| store := Some {| VaultProvider.Namespace := Some "team-a";
                      VaultProvider.Auth := None |};
     handle := {| namespace := ""; token := "" |};
     world := tt |}.

Definition workload : ServiceAccountSelector.t :=
  {| ServiceAccountSelector.Name := "vault-auth";
     ServiceAccountSelector.Namespace := Some "infra";
     ServiceAccountSelector.Audiences := ["vault"] |}.

End Fixture.

(** ** Further views of a trace *)

(** The self-lookups of a run: the namespace and the token of each. *)
Definition lookup_of (e : event) : option (string * string) :=
  match e with
  | EvLookupSelf ns tok => Some (ns, tok)
  | _ => None
  end.

Definition lookups (evs : list event) : list (string * string) :=
  omap lookup_of evs.

(** The self-revocations of a run. *)
Definition revocation_of (e : event) : option (string * string) :=
  match e with
  | EvRevokeSelf ns tok => Some (ns, tok)
  | _ => None
  end.

Definition revocations (evs : list event) : list (string * string) :=
  omap revocation_of evs.

(** What a run reported to [metrics.ObserveAPICall]. *)
Definition observation_of (e : event) : option (api_call * option error) :=
  match e with
  | EvObserveAPICall call err => Some (call, err)
  | _ => None
  end.

Definition observations (evs : list event) : list (api_call * option error) :=
  omap observation_of evs.

(** The credential was cleared during the run. *)
Definition cleared (evs : list event) : Prop := EvClearToken ∈ evs.

(** A text made of decimal digits only. *)
Fixpoint all_digits (s : string) : bool :=
  match s with
  | EmptyString => true
  | String c s' => strconv.is_digit c && all_digits s'
  end.

(** The namespaces a run set on the handle, in order. *)
Definition namespace_set_of (e : event) : option string :=
  match e with
  | EvSetNamespace ns => Some ns
  | _ => None
  end.

Definition namespace_sets (evs : list event) : list string :=
  omap namespace_set_of evs.

(** The runs of the function that [useAuthNamespace] returns after a
    switch, seen by the message it logs: the arguments of each
    "Restoring client namespace" message. *)
Definition restoration_of (e : event) : option (list string) :=
  match e with
  | EvLogInfo msg args =>
      if bool_decide (msg = "Restoring client namespace to namespace=%s")
      then Some args else None
  | _ => None
  end.

Definition restorations (evs : list event) : list (list string) :=
  omap restoration_of evs.

(** The auth namespace [useAuthNamespace] switches to, if it switches:
    the one configured, when it differs from the operating namespace. *)
Definition scope_switch (st : VaultProvider.t) (auth : VaultAuth.t)
  : option string :=
  match VaultAuth.Namespace auth with
  | Some authNs =>
      if bool_decide (authNs <> operating_namespace st) then Some authNs else None
  | None => None
  end.

Section ChainCalls.

Context {W Config : Type} {collab : Collaborators W Config}.

(** The world the chain of [setAuth] starts in: the one the lookup of
    the token held has left, or the one of the client when no token is
    held and no lookup is made. *)
Definition chain_entry_world (st : VaultProvider.t) (c : client W) : W :=
  if bool_decide (token (handle c) <> "")
  then (LookupSelfWithContext
          (login_namespace st (handle c)) (token (handle c)) (world c)).2
  else world c.

(** A walk over the strategies [ms], told by what the strategy functions
    themselves return. It starts with a token and a world; each strategy
    is applied to the store, the namespace [ns] and the token and world
    the one before it has left; the walk stops at the first strategy that
    returns [attempted = true], with that strategy's error and the token
    and world it has left, and fails when every strategy declined. The
    third index lists what each strategy applied returned. *)
Inductive chain_calls (cfg : Config) (st : VaultProvider.t) (ns : string) :
  list mechanism -> string * W ->
  list (mechanism * bool * option error) -> option error -> string * W -> Prop :=
| calls_none s :
    chain_calls cfg st ns [] s [] (Some (errors_New errAuthFormat)) s
| calls_attempted m ms tok w err s' :
    strategy_of cfg m st ns tok w = ((true, err), s') ->
    chain_calls cfg st ns (m :: ms) (tok, w) [(m, true, err)] err s'
| calls_declined m ms tok w err tok' w' calls r s'' :
    strategy_of cfg m st ns tok w = ((false, err), (tok', w')) ->
    chain_calls cfg st ns ms (tok', w') calls r s'' ->
    chain_calls cfg st ns (m :: ms) (tok, w) ((m, false, err) :: calls) r s''.

End ChainCalls.

(** ** Further scenarios *)

Module Scenario.

(** A backend that cannot be reached for lookups; AppRole is configured
    and logs in. *)
Definition unreachable : Collaborators unit unit :=
  Fixture.backend (fun _ => (None, Some (errors_New "connection refused")))
    None [AppRole] None.

(** A backend whose AppRole login is refused. *)
Definition refusing : Collaborators unit unit :=
  Fixture.backend (Fixture.strict Fixture.expiring) None [AppRole]
    (Some (errors_New "invalid role or secret ID")).

(** A response whose [type] is a number, and one whose [ttl] is a
    string. *)
Definition odd_type : Secret :=
  {| Data := {[ "type" := VNumber "7";
                "ttl" := VNumber "3600";
                "expire_time" := VNil ]} |}.
Definition odd_ttl : Secret :=
  {| Data := {[ "type" := VString "service";
                "ttl" := VString "3600";
                "expire_time" := VNil ]} |}.

(** A response whose [ttl] is not an integer. *)
Definition fractional_ttl : Secret :=
  {| Data := {[ "type" := VString "service"; "ttl" := VNumber "1.5" ]} |}.

(** A token with exactly a minute to live. *)
Definition minute : Secret :=
  {| Data := {[ "type" := VString "service";
                "ttl" := VNumber "60";
                "expire_time" := VString "2026-01-01T00:00:00Z" ]} |}.

(** A client whose store is nil. *)
Definition storeless : client unit :=
  {| store := None;
     handle := {| namespace := ""; token := "s.held" |};
     world := tt |}.

(** A client that holds a token and whose handle is under its operating
    namespace "team-a"; the auth namespace is "login". *)
Definition settled : client unit :=
  Fixture.session (Fixture.provider (Some "team-a") (Some "login"))
    "team-a" "s.held".

(** A cluster that refuses every token request. *)
Definition deny (ns name : string) (req : TokenRequest.t)
  : option TokenRequest.t * option error :=
  (None, Some (errors_New "serviceaccounts not found")).

(** A service-account reference whose audiences repeat an additional
    one. *)
Definition repeated : ServiceAccountSelector.t :=
  {| ServiceAccountSelector.Name := "vault-auth";
     ServiceAccountSelector.Namespace := None;
     ServiceAccountSelector.Audiences := ["vault"; "sts"] |}.

End Scenario.

(** * Properties *)

(** ** json.Number.Int64 on a few numbers *)

Example Int64_59 : Int64 "59" = (59, None).
Proof. reflexivity. Qed.
Example Int64_neg : Int64 "-7" = (-7, None).
Proof. reflexivity. Qed.
Example Int64_max : Int64 "9223372036854775807" = (2 ^ 63 - 1, None).
Proof. reflexivity. Qed.
Example Int64_over : Int64 "9223372036854775808"
  = (2 ^ 63 - 1, Some (NumError "ParseInt" "9223372036854775808" ErrRange)).
Proof. reflexivity. Qed.
Example Int64_min : Int64 "-9223372036854775808" = (- 2 ^ 63, None).
Proof. reflexivity. Qed.
Example Int64_float : Int64 "1.5" = (0, Some (NumError "ParseInt" "1.5" ErrSyntax)).
Proof. reflexivity. Qed.
Example Int64_huge : snd (Int64 "99999999999999999999999") = Some (NumError "ParseInt" "99999999999999999999999" ErrRange).
Proof. reflexivity. Qed.

(** ** The monad *)

Section Monad.

Context {W Config : Type} {collab : Collaborators W Config}.

Lemma bind_val {A B} (m : M W A) (k : A -> M W B) c a c' evs :
  m c = {| res := Val a; final := c'; emitted := evs |} ->
  bind m k c =
    {| res := res (k a c'); final := final (k a c');
       emitted := evs ++ emitted (k a c') |}.
Proof. intros H. unfold bind. rewrite H. reflexivity. Qed.

Lemma bind_panicked {A B} (m : M W A) (k : A -> M W B) c p c' evs :
  m c = {| res := Panicked p; final := c'; emitted := evs |} ->
  bind m k c = {| res := Panicked p; final := c'; emitted := evs |}.
Proof. intros H. unfold bind. rewrite H. reflexivity. Qed.

Lemma bind_unfold {A B} (m : M W A) (k : A -> M W B) c :
  bind m k c =
    match res (m c) with
    | Val a =>
        {| res := res (k a (final (m c))); final := final (k a (final (m c)));
           emitted := emitted (m c) ++ emitted (k a (final (m c))) |}
    | Panicked p =>
        {| res := Panicked p; final := final (m c); emitted := emitted (m c) |}
    end.
Proof. reflexivity. Qed.

Lemma outcome_eta {A} (o : outcome W A) :
  o = {| res := res o; final := final o; emitted := emitted o |}.
Proof. destruct o; reflexivity. Qed.

End Monad.

(** ** TokenValidator: checkToken *)

Section TokenValidator.

Context {W Config : Type} {collab : Collaborators W Config}.

Ltac run_lookup H :=
  unfold lookup_answer in H;
  unfold checkToken, bind, LookupSelf, ObserveAPICall, emit;
  destruct (LookupSelfWithContext _ _ _) as [answer w];
  simpl in H; subst answer; simpl.

(** C5. A lookup response whose type is "batch" makes [checkToken] return
    [(false, nil)], whatever its ttl is and whether or not the [ttl] and
    [expire_time] fields are there: the type is checked first. *)
Theorem checkToken_batch (c : client W) (resp : Secret) :
  lookup_answer c = (Some resp, None) ->
  Data resp !! "type" = Some (VString "batch") ->
  res (checkToken c) = Val (false, None).
Proof.
  intros Hl Hty. run_lookup Hl. rewrite Hty. reflexivity.
Qed.

(** C3. For a lookup response whose type is a string other than "batch"
    and whose ttl is below 60: [checkToken] returns [(false, nil)] when
    the expiration time is there (not null), and [(true, nil)] when it
    is null. *)
Theorem checkToken_expiry_buffer (c : client W) (resp : Secret)
    (ty n : string) (ttl : Z) (expireTime : value) :
  lookup_answer c = (Some resp, None) ->
  Data resp !! "type" = Some (VString ty) ->
  ty <> "batch" ->
  Data resp !! "ttl" = Some (VNumber n) ->
  Int64 n = (ttl, None) ->
  ttl < 60 ->
  Data resp !! "expire_time" = Some expireTime ->
  (expireTime <> VNil -> res (checkToken c) = Val (false, None)) /\
  (expireTime = VNil -> res (checkToken c) = Val (true, None)).
Proof.
  intros Hl Hty Hnb Httl Hn Hlt Hexp.
  assert (Hb : (ttl <? 60) = true) by (apply Z.ltb_lt; exact Hlt).
  run_lookup Hl. rewrite Hty. simpl.
  rewrite bool_decide_eq_false_2 by exact Hnb.
  rewrite Httl. simpl. rewrite Hn, Hexp, Hb. simpl.
  split.
  - intros Hnil. destruct expireTime; simpl; try reflexivity. congruence.
  - intros ->. reflexivity.
Qed.

(** C4, as the code has it. [checkToken] returns a non-nil error for a
    response that lacks [type]; for a response whose type is a string
    other than "batch" and that lacks [ttl]; and for a response whose
    type is a string other than "batch", whose ttl is a [json.Number],
    and that lacks [expire_time]. *)
Theorem checkToken_missing_field (c : client W) (resp : Secret) :
  lookup_answer c = (Some resp, None) ->
  (Data resp !! "type" = None ->
   res (checkToken c) = Val (false, Some (errors_New "could not assert token type")))
  /\
  (forall ty, Data resp !! "type" = Some (VString ty) -> ty <> "batch" ->
     Data resp !! "ttl" = None ->
     res (checkToken c) = Val (false, Some (errors_New "no TTL found in response")))
  /\
  (forall ty n, Data resp !! "type" = Some (VString ty) -> ty <> "batch" ->
     Data resp !! "ttl" = Some (VNumber n) ->
     Data resp !! "expire_time" = None ->
     exists e, res (checkToken c) = Val (false, Some e)).
Proof.
  intros Hl. run_lookup Hl. repeat split.
  - intros ->. reflexivity.
  - intros ty -> Hnb ->. simpl.
    rewrite bool_decide_eq_false_2 by exact Hnb. reflexivity.
  - intros ty n -> Hnb -> ->. simpl.
    rewrite bool_decide_eq_false_2 by exact Hnb. simpl.
    destruct (Int64 n) as [ttlInt [e|]]; simpl; eauto.
Qed.

(** Otherwise the token is valid. *)
Lemma checkToken_valid (c : client W) (resp : Secret)
    (ty n : string) (ttl : Z) (expireTime : value) :
  lookup_answer c = (Some resp, None) ->
  Data resp !! "type" = Some (VString ty) ->
  ty <> "batch" ->
  Data resp !! "ttl" = Some (VNumber n) ->
  Int64 n = (ttl, None) ->
  Data resp !! "expire_time" = Some expireTime ->
  60 <= ttl \/ expireTime = VNil ->
  res (checkToken c) = Val (true, None).
Proof.
  intros Hl Hty Hnb Httl Hn Hexp Hok.
  run_lookup Hl. rewrite Hty. simpl.
  rewrite bool_decide_eq_false_2 by exact Hnb.
  rewrite Httl. simpl. rewrite Hn, Hexp. simpl.
  destruct Hok as [Hge | ->].
  - assert (Hb : (ttl <? 60) = false) by (apply Z.ltb_ge; exact Hge).
    rewrite Hb. reflexivity.
  - rewrite andb_false_r. reflexivity.
Qed.

End TokenValidator.

(** ** Traces *)

(** [H] says that an event is in a trace that is written out: split it
    into the cases that are not absurd. *)
Ltac not_in_trace H :=
  repeat (apply elem_of_cons in H as [H | H]; [try discriminate H|]);
  try (apply elem_of_nil in H; contradiction).

Lemma reports_app (xs ys : list event) :
  reports (xs ++ ys) = reports xs ++ reports ys.
Proof. apply omap_app. Qed.

Lemma reports_cons (e : event) (evs : list event) :
  reports (e :: evs) =
    match report_of e with
    | Some r => r :: reports evs
    | None => reports evs
    end.
Proof. reflexivity. Qed.

Lemma deferred_runs_app (xs ys : list event) :
  deferred_runs (xs ++ ys) = (deferred_runs xs + deferred_runs ys)%nat.
Proof. unfold deferred_runs. rewrite omap_app, length_app. reflexivity. Qed.

Lemma reused_app (xs ys : list event) :
  reused (xs ++ ys) <-> reused xs \/ reused ys.
Proof. unfold reused. apply elem_of_app. Qed.

Lemma acquired_message_not_reuse (m : mechanism) :
  acquired_message m <> "Re-using existing token".
Proof. destruct m; discriminate. Qed.

(** ** Shapes of a walk *)

Section ChainRun.

Implicit Types (ms : list mechanism) (r : option error).
Implicit Types calls : list (mechanism * bool * option error).

Lemma chain_run_prefix ms calls r :
  chain_run ms calls r -> mechanism_of <$> calls `prefix_of` ms.
Proof.
  induction 1 as [| m ms err | m ms err calls r _ IH]; simpl.
  - apply prefix_nil.
  - apply prefix_cons, prefix_nil.
  - apply prefix_cons, IH.
Qed.

Lemma chain_run_attempted ms calls r i m e :
  chain_run ms calls r ->
  calls !! i = Some (m, true, e) ->
  length calls = S i /\ r = e.
Proof.
  intros Hrun. revert i.
  induction Hrun as [| m' ms err | m' ms err calls r _ IH]; intros i Hi.
  - discriminate.
  - destruct i as [|i]; simpl in Hi; [|discriminate].
    injection Hi as _ ->. split; reflexivity.
  - destruct i as [|i]; simpl in Hi; [discriminate|].
    destruct (IH i Hi) as [Hlen ->]. simpl. split; congruence.
Qed.

Lemma chain_run_declined ms calls r i m e :
  chain_run ms calls r ->
  calls !! i = Some (m, false, e) ->
  (S i < length ms)%nat ->
  is_Some (calls !! S i).
Proof.
  intros Hrun. revert i.
  induction Hrun as [| m' ms err | m' ms err calls r Hrun IH]; intros i Hi Hlt.
  - discriminate.
  - destruct i as [|i]; simpl in Hi; discriminate.
  - destruct i as [|i]; simpl in *.
    + inversion Hrun; subst; simpl in *; eauto; lia.
    + apply IH; [exact Hi | lia].
Qed.

Lemma chain_run_first m ms calls r :
  chain_run (m :: ms) calls r ->
  exists attempted err, calls !! 0%nat = Some (m, attempted, err).
Proof. inversion 1; subst; simpl; eauto. Qed.

Lemma chain_run_all_declined ms calls r :
  chain_run ms calls r ->
  (forall m a e, (m, a, e) ∈ calls -> a = false) ->
  mechanism_of <$> calls = ms /\ r = Some (errors_New errAuthFormat).
Proof.
  induction 1 as [| m ms err | m ms err calls r _ IH]; intros Hall.
  - split; reflexivity.
  - specialize (Hall m true err). discriminate Hall. apply list_elem_of_here.
  - destruct IH as [Hms Hr].
    + intros m' a e Hin. apply (Hall m' a e). apply list_elem_of_further, Hin.
    + split; [rewrite fmap_cons, Hms; reflexivity | exact Hr].
Qed.

Lemma chain_run_functional ms calls r r' :
  chain_run ms calls r -> chain_run ms calls r' -> r = r'.
Proof.
  intros Hrun. revert r'.
  induction Hrun; intros r' Hrun'; inversion Hrun'; subst; auto.
Qed.

End ChainRun.

(** ** The chain of [setAuth] *)

Section Walk.

Context {W Config : Type} {collab : Collaborators W Config}.

(** Lines 68 to 115 of [setAuth] are the walk over [priority]. *)
Lemma setAuth_walks_priority (cfg : Config) (c : client W) :
  setAuth cfg c =
    match store c with
    | None => raise NilDereference c
    | Some st =>
        match VaultProvider.Auth st with
        | None => ret None c
        | Some _ =>
            bind
              match VaultProvider.Namespace st with
              | Some ns => SetNamespace ns
              | None => ret tt
              end
              (fun _ =>
                 bind useAuthNamespace
                   (fun restoreNamespace =>
                      defer restoreNamespace (negotiate cfg))) c
        end
    end.
Proof.
  unfold setAuth.
  destruct (store c) as [st|]; [|reflexivity].
  destruct (VaultProvider.Auth st); reflexivity.
Qed.

(** One step of the walk. *)
Lemma walk_step (cfg : Config) (m : mechanism) (ms : list mechanism)
    (c : client W) st attempted err tok w :
  store c = Some st ->
  strategy_of cfg m st (namespace (handle c)) (token (handle c)) (world c)
    = ((attempted, err), (tok, w)) ->
  let c' := {| store := store c;
               handle := {| namespace := namespace (handle c); token := tok |};
               world := w |} in
  walk cfg (m :: ms) c =
    if attempted then
      {| res := Val err; final := c';
         emitted := [EvTryAcquire m true err; EvLogInfo (acquired_message m) []] |}
    else
      {| res := res (walk cfg ms c'); final := final (walk cfg ms c');
         emitted := EvTryAcquire m false err :: emitted (walk cfg ms c') |}.
Proof.
  intros Hst Hf. simpl. unfold bind at 1. unfold tryAcquire.
  rewrite Hst, Hf. simpl. destruct attempted; reflexivity.
Qed.

Lemma walk_run (cfg : Config) (ms : list mechanism) (c : client W) st :
  store c = Some st ->
  exists r,
    res (walk cfg ms c) = Val r /\
    chain_run ms (reports (emitted (walk cfg ms c))) r /\
    store (final (walk cfg ms c)) = Some st /\
    namespace (handle (final (walk cfg ms c))) = namespace (handle c) /\
    deferred_runs (emitted (walk cfg ms c)) = 0%nat /\
    ~ reused (emitted (walk cfg ms c)).
Proof.
  revert c. induction ms as [|m ms IH]; intros c Hst.
  - exists (Some (errors_New errAuthFormat)). simpl.
    repeat split; auto using chain_none.
    unfold reused. apply not_elem_of_nil.
  - destruct (strategy_of cfg m st (namespace (handle c)) (token (handle c)) (world c))
      as [[attempted err] [tok w]] eqn:Hf.
    rewrite (walk_step cfg m ms c st attempted err tok w Hst Hf).
    destruct attempted; simpl.
    + exists err. repeat split; auto using chain_attempted.
      unfold reused. rewrite !elem_of_cons.
      intros [H | [H | H]]; try discriminate.
      * injection H as H. symmetry in H. exact (acquired_message_not_reuse m H).
      * exact (not_elem_of_nil _ H).
    + match goal with
      | |- context [walk cfg ms ?c'] =>
          destruct (IH c') as (r & Hr & Hrun & Hs & Hns & Hd & Hu); [exact Hst|]
      end.
      exists r. repeat split; auto.
      * apply chain_declined, Hrun.
      * unfold reused. rewrite elem_of_cons.
        intros [H | H]; [discriminate | exact (Hu H)].
Qed.

End Walk.

(** ** Frames of the validator and of the scope *)

Section Frames.

Context {W Config : Type} {collab : Collaborators W Config}.

(** [checkToken] leaves the store and the handle as they are, makes one
    lookup and one observation, and reports a token valid without error
    only. *)
Lemma checkToken_frame (c : client W) :
  store (final (checkToken c)) = store c /\
  handle (final (checkToken c)) = handle c /\
  emitted (checkToken c) =
    [EvLookupSelf (namespace (handle c)) (token (handle c));
     EvObserveAPICall CallHCVaultLookupSelf (lookup_answer c).2] /\
  (forall e, res (checkToken c) = Val (true, e) -> e = None).
Proof.
  unfold lookup_answer, checkToken, bind, LookupSelf, ObserveAPICall, emit.
  destruct (LookupSelfWithContext _ _ _) as [[resp err] w]. simpl.
  destruct err as [e|]; simpl; [repeat split; congruence|].
  destruct resp as [resp|]; simpl; [|repeat split; congruence].
  destruct (Data resp !! "type") as [t|]; simpl; [|repeat split; congruence].
  destruct t; simpl; try (repeat split; congruence).
  case_bool_decide; simpl; [repeat split; congruence|].
  destruct (Data resp !! "ttl") as [ttl|]; simpl; [|repeat split; congruence].
  destruct ttl; simpl; try (repeat split; congruence).
  destruct (Int64 n) as [ttlInt [e|]]; simpl; [repeat split; congruence|].
  destruct (Data resp !! "expire_time") as [expireTime|]; simpl;
    [|repeat split; congruence].
  destruct ((ttlInt <? 60) && not_nil expireTime); simpl;
    repeat split; congruence.
Qed.

(** [negotiate], by the outcome of the validation. *)
Lemma negotiate_cases (cfg : Config) (c : client W) :
  negotiate cfg c =
    if bool_decide (token (handle c) <> "") then
      let o := checkToken c in
      match res o with
      | Val (true, err) =>
          {| res := Val err; final := final o;
             emitted := emitted o ++ [EvLogInfo "Re-using existing token" []] |}
      | Val (false, _) =>
          {| res := res (walk cfg priority (final o));
             final := final (walk cfg priority (final o));
             emitted := emitted o ++ emitted (walk cfg priority (final o)) |}
      | Panicked p =>
          {| res := Panicked p; final := final o; emitted := emitted o |}
      end
    else
      {| res := res (walk cfg priority c);
         final := final (walk cfg priority c);
         emitted := emitted (walk cfg priority c) |}.
Proof.
  unfold negotiate. rewrite bind_unfold. cbn [Token res final emitted].
  rewrite bind_unfold.
  destruct (bool_decide (token (handle c) <> "")).
  - cbn zeta. destruct (checkToken c) as [[[[|] err]|p] c' evs]; reflexivity.
  - reflexivity.
Qed.

(** Lines 50 to 55: the handle ends under [login_namespace], and the
    function to defer restores the operating namespace or does nothing. *)
Lemma enter_scope (c : client W) st auth :
  store c = Some st ->
  VaultProvider.Auth st = Some auth ->
  exists pre restore,
    bind
      match VaultProvider.Namespace st with
      | Some ns => SetNamespace ns
      | None => ret tt
      end
      (fun _ => useAuthNamespace) c
    = {| res := Val restore; final := entered st c; emitted := pre |} /\
    reports pre = [] /\ deferred_runs pre = 0%nat /\ ~ reused pre /\
    ((restore = no_op /\
      (VaultAuth.Namespace auth = None \/
       VaultAuth.Namespace auth = Some (operating_namespace st))) \/
     (restore = restore_to (operating_namespace st) /\
      exists authNs, VaultAuth.Namespace auth = Some authNs /\
                     authNs <> operating_namespace st)).
Proof.
  intros Hst Hauth.
  destruct c as [s [ns tok] w]. simpl in Hst. subst s.
  unfold bind, useAuthNamespace, entered, login_namespace, operating_namespace.
  destruct st as [opNs a]. simpl in Hauth. subst a.
  destruct auth as [authNs]. simpl.
  destruct opNs as [opNs|]; destruct authNs as [authNs|]; simpl;
    try case_bool_decide; simpl;
    eexists _, _; (split; [reflexivity|]);
    unfold reused; rewrite ?elem_of_cons, ?elem_of_nil;
    (repeat split; [intuition discriminate|]); eauto.
  - left. split; [reflexivity|]. right. congruence.
  - left. split; [reflexivity|]. right. congruence.
Qed.

End Frames.

(** ** AuthOrchestrator: setAuth *)

Section Orchestrator.

Context {W Config : Type} {collab : Collaborators W Config}.

Lemma bind_assoc {A B C} (m : M W A) (f : A -> M W B) (g : B -> M W C) c :
  bind m (fun a => bind (f a) g) c = bind (bind m f) g c.
Proof.
  unfold bind.
  destruct (m c) as [[a|p] c1 e1]; simpl; [|reflexivity].
  destruct (f a c1) as [[b|p] c2 e2]; simpl; [|reflexivity].
  rewrite app_assoc. reflexivity.
Qed.

(** Both functions [useAuthNamespace] can return run without a panic and
    touch neither the store nor the token. *)
Lemma restore_run (restore : M W unit) (ns : string) (c : client W) :
  restore = no_op \/ restore = restore_to ns ->
  res (restore c) = Val tt /\
  reports (emitted (restore c)) = [] /\
  deferred_runs (emitted (restore c)) = 0%nat /\
  ~ reused (emitted (restore c)) /\
  store (final (restore c)) = store c /\
  token (handle (final (restore c))) = token (handle c).
Proof.
  intros [-> | ->]; simpl; unfold reused;
    rewrite ?elem_of_cons, ?elem_of_nil;
    repeat split; intuition discriminate.
Qed.

(** [setAuth] with auth configured: the scope is entered, [negotiate]
    runs inside it, and the deferred function runs last. *)
Lemma setAuth_scoped (cfg : Config) (c : client W) st auth :
  store c = Some st ->
  VaultProvider.Auth st = Some auth ->
  exists pre restore,
    let o := negotiate cfg (entered st c) in
    setAuth cfg c =
      {| res := res o;
         final := final (restore (final o));
         emitted := pre ++ emitted o ++ EvRunDeferred :: emitted (restore (final o)) |} /\
    reports pre = [] /\ deferred_runs pre = 0%nat /\ ~ reused pre /\
    ((restore = no_op /\
      (VaultAuth.Namespace auth = None \/
       VaultAuth.Namespace auth = Some (operating_namespace st))) \/
     (restore = restore_to (operating_namespace st) /\
      exists authNs, VaultAuth.Namespace auth = Some authNs /\
                     authNs <> operating_namespace st)).
Proof.
  intros Hst Hauth.
  destruct (enter_scope c st auth Hst Hauth)
    as (pre & restore & Heq & Hr & Hd & Hu & Hcases).
  exists pre, restore. cbn zeta. repeat split; auto.
  rewrite setAuth_walks_priority, Hst, Hauth, bind_assoc.
  rewrite (bind_val _ _ _ _ _ _ Heq).
  assert (Hres : res (restore (final (negotiate cfg (entered st c)))) = Val tt).
  { destruct Hcases as [[-> _] | [-> _]]; reflexivity. }
  unfold defer. rewrite bind_unfold. cbn [emit res final emitted].
  rewrite Hres. reflexivity.
Qed.

(** Every report of a walk is what the strategy returned on some input. *)
Lemma walk_reports_genuine (cfg : Config) (ms : list mechanism) (c : client W) st :
  store c = Some st ->
  forall m a e, (m, a, e) ∈ reports (emitted (walk cfg ms c)) ->
    exists st' ns tok w, (strategy_of cfg m st' ns tok w).1 = (a, e).
Proof.
  revert c. induction ms as [|m0 ms IH]; intros c Hst m a e Hin.
  - simpl in Hin. apply elem_of_nil in Hin. contradiction.
  - destruct (strategy_of cfg m0 st (namespace (handle c)) (token (handle c)) (world c))
      as [[attempted err] [tok w]] eqn:Hf.
    rewrite (walk_step cfg m0 ms c st attempted err tok w Hst Hf) in Hin.
    destruct attempted; simpl in Hin.
    + apply list_elem_of_singleton in Hin. injection Hin as -> -> ->.
      eexists _, _, _, _. rewrite Hf. reflexivity.
    + apply elem_of_cons in Hin. destruct Hin as [Hin | Hin].
      * injection Hin as -> -> ->. eexists _, _, _, _. rewrite Hf. reflexivity.
      * eapply IH; [|exact Hin]. exact Hst.
Qed.

(** The strategy calls of a run of [setAuth]: none, or those of a walk
    over [priority] whose error is returned. *)
Lemma setAuth_trace (cfg : Config) (c : client W) :
  let o := setAuth cfg c in
  (reports (emitted o) = [] /\
   (store c = None \/
    (exists st, store c = Some st /\ VaultProvider.Auth st = None) \/
    (reused (emitted o) /\ res o = Val None) \/
    (exists p, res o = Panicked p)))
  \/
  (exists r,
     chain_run priority (reports (emitted o)) r /\
     res o = Val r /\
     ~ reused (emitted o) /\
     forall m a e, (m, a, e) ∈ reports (emitted o) ->
       exists st' ns tok w, (strategy_of cfg m st' ns tok w).1 = (a, e)).
Proof.
  cbn zeta. destruct (store c) as [st|] eqn:Hst.
  2:{ left. rewrite setAuth_walks_priority, Hst. simpl. auto. }
  destruct (VaultProvider.Auth st) as [auth|] eqn:Hauth.
  2:{ left. rewrite setAuth_walks_priority, Hst, Hauth. simpl. eauto 6. }
  destruct (setAuth_scoped cfg c st auth Hst Hauth)
    as (pre & restore & Heq & Hr & Hd & Hu & Hcases).
  cbn zeta in Heq. rewrite Heq. cbn [res final emitted].
  assert (Hrest : restore = no_op \/ restore = restore_to (operating_namespace st))
    by (destruct Hcases as [[-> _] | [-> _]]; auto).
  destruct (restore_run restore _ (final (negotiate cfg (entered st c))) Hrest)
    as (_ & Hr' & _ & Hu' & _).
  assert (Hreports : forall evs,
    reports (pre ++ evs ++ EvRunDeferred :: emitted (restore (final (negotiate cfg (entered st c)))))
    = reports evs).
  { intros evs. rewrite !reports_app, reports_cons, Hr, Hr'.
    apply app_nil_r. }
  assert (Hreused : forall evs,
    reused (pre ++ evs ++ EvRunDeferred :: emitted (restore (final (negotiate cfg (entered st c)))))
    <-> reused evs).
  { intros evs. rewrite !reused_app. unfold reused at 3.
    rewrite elem_of_cons. fold (reused (emitted (restore (final (negotiate cfg (entered st c)))))).
    intuition discriminate. }
  rewrite Hreports. setoid_rewrite Hreused.
  assert (Hst' : store (entered st c) = Some st) by exact Hst.
  rewrite negotiate_cases.
  destruct (bool_decide (token (handle (entered st c)) <> "")).
  - destruct (checkToken_frame (entered st c)) as (Hs & Hh & Hev & Hvalid).
    cbn zeta. destruct (res (checkToken (entered st c))) as [[[|] err]|p] eqn:Hck;
      cbn [res final emitted].
    + left. rewrite reports_app, Hev. split; [reflexivity|].
      right. right. left. split.
      * apply reused_app. right. apply list_elem_of_here.
      * rewrite (Hvalid err eq_refl). reflexivity.
    + right.
      assert (Hs2 : store (final (checkToken (entered st c))) = Some st) by congruence.
      destruct (walk_run cfg priority _ st Hs2) as (r & Hres & Hrun & _ & _ & _ & Hnu).
      exists r. rewrite reports_app, Hev. simpl. repeat split; auto.
      * unfold reused. rewrite !elem_of_cons.
        intros [H | [H | H]]; [discriminate | discriminate | exact (Hnu H)].
      * apply (walk_reports_genuine cfg priority _ st Hs2).
    + left. rewrite Hev. split; [reflexivity|]. eauto 7.
  - right. cbn [res final emitted].
    destruct (walk_run cfg priority _ st Hst') as (r & Hres & Hrun & _ & _ & _ & Hnu).
    exists r. repeat split; auto.
    apply (walk_reports_genuine cfg priority _ st Hst').
Qed.

End Orchestrator.

(** ** The chain, by what the strategies return *)

Section ChainFacts.

Context {W Config : Type} {collab : Collaborators W Config}.

(** Forgetting the calls leaves the shape of the walk. *)
Lemma chain_calls_run (cfg : Config) st ns ms s calls r s' :
  chain_calls cfg st ns ms s calls r s' -> chain_run ms calls r.
Proof.
  induction 1; [apply chain_none | apply chain_attempted |
                apply chain_declined; assumption].
Qed.

(** The reports of [walk] are what the strategies returned, each applied
    to what the one before it has left. *)
Lemma walk_calls (cfg : Config) (ms : list mechanism) (c : client W) st :
  store c = Some st ->
  exists r,
    res (walk cfg ms c) = Val r /\
    chain_calls cfg st (namespace (handle c)) ms
      (token (handle c), world c)
      (reports (emitted (walk cfg ms c))) r
      (token (handle (final (walk cfg ms c))), world (final (walk cfg ms c))).
Proof.
  revert c. induction ms as [|m ms IH]; intros c Hst.
  - exists (Some (errors_New errAuthFormat)). simpl.
    split; [reflexivity | apply calls_none].
  - destruct (strategy_of cfg m st (namespace (handle c)) (token (handle c)) (world c))
      as [[attempted err] [tok w]] eqn:Hf.
    rewrite (walk_step cfg m ms c st attempted err tok w Hst Hf).
    destruct attempted; cbn [res final emitted].
    + exists err. split; [reflexivity|].
      apply calls_attempted. exact Hf.
    + match goal with
      | |- context [walk cfg ms ?c'] =>
          destruct (IH c') as (r & Hr & Hcalls); [exact Hst|]
      end.
      exists r. split; [exact Hr|].
      rewrite reports_cons. cbn [report_of].
      eapply calls_declined; [exact Hf | exact Hcalls].
Qed.

(** The world [checkToken] leaves is the one its lookup has left. *)
Lemma checkToken_world (c : client W) :
  world (final (checkToken c)) =
    (LookupSelfWithContext (namespace (handle c)) (token (handle c)) (world c)).2.
Proof.
  unfold checkToken, bind, LookupSelf, ObserveAPICall, emit.
  destruct (LookupSelfWithContext _ _ _) as [[resp err] w]. simpl.
  destruct err as [e|]; simpl; [reflexivity|].
  destruct resp as [resp|]; simpl; [|reflexivity].
  destruct (Data resp !! "type") as [t|]; simpl; [|reflexivity].
  destruct t; simpl; try reflexivity.
  case_bool_decide; simpl; [reflexivity|].
  destruct (Data resp !! "ttl") as [ttl|]; simpl; [|reflexivity].
  destruct ttl; simpl; try reflexivity.
  destruct (Int64 n) as [ttlInt [e|]]; simpl; [reflexivity|].
  destruct (Data resp !! "expire_time") as [expireTime|]; simpl; [|reflexivity].
  destruct ((ttlInt <? 60) && not_nil expireTime); reflexivity.
Qed.

(** The functions [useAuthNamespace] returns leave the world alone. *)
Lemma restore_world (restore : M W unit) (ns : string) (c : client W) :
  restore = no_op \/ restore = restore_to ns ->
  world (final (restore c)) = world c.
Proof. intros [-> | ->]; reflexivity. Qed.

(** When no token is held, or the token held is not reported valid,
    [setAuth] returns what the walk over [priority] returns: the reports
    of the run are what the strategy functions returned, applied in turn
    under the login namespace, starting from the token held and the world
    the lookup has left; the token and the world on return are the ones
    the last strategy has left. *)
Lemma setAuth_chain_calls (cfg : Config) (c : client W) st auth :
  store c = Some st ->
  VaultProvider.Auth st = Some auth ->
  token (handle c) = "" \/
    (exists err, res (checkToken (entered st c)) = Val (false, err)) ->
  exists r,
    res (setAuth cfg c) = Val r /\
    chain_calls cfg st (login_namespace st (handle c)) priority
      (token (handle c), chain_entry_world st c)
      (reports (emitted (setAuth cfg c))) r
      (token (handle (final (setAuth cfg c))), world (final (setAuth cfg c))).
Proof.
  intros Hst Hauth Hchain.
  destruct (setAuth_scoped cfg c st auth Hst Hauth)
    as (pre & restore & Heq & Hr & _ & _ & Hcases).
  cbn zeta in Heq. rewrite Heq. cbn [res final emitted].
  assert (Hrest : restore = no_op \/ restore = restore_to (operating_namespace st))
    by (destruct Hcases as [[-> _] | [-> _]]; auto).
  destruct (restore_run restore _ (final (negotiate cfg (entered st c))) Hrest)
    as (_ & Hr' & _ & _ & _ & Htok').
  rewrite (restore_world restore _ _ Hrest), Htok'.
  rewrite !reports_app, reports_cons, Hr, Hr', app_nil_r. cbn [report_of app].
  assert (Hst1 : store (entered st c) = Some st) by exact Hst.
  destruct (checkToken_frame (entered st c)) as (Hs & Hh & Hev & Hvalid).
  assert (Hst2 : store (final (checkToken (entered st c))) = Some st) by congruence.
  rewrite negotiate_cases. unfold chain_entry_world.
  change (token (handle (entered st c))) with (token (handle c)).
  case_bool_decide as Htok.
  - destruct Hchain as [Hempty | [err Hk]]; [contradiction|].
    cbn zeta. rewrite Hk. cbn [res final emitted].
    destruct (walk_calls cfg priority _ st Hst2) as (r & Hres & Hcalls).
    rewrite Hh, (checkToken_world (entered st c)) in Hcalls.
    exists r. split; [exact Hres|].
    rewrite reports_app, Hev. exact Hcalls.
  - cbn [res final emitted].
    destruct (walk_calls cfg priority _ st Hst1) as (r & Hres & Hcalls).
    exists r. split; [exact Hres | exact Hcalls].
Qed.

End ChainFacts.

Section OrchestratorClaims.

Context {W Config : Type} {collab : Collaborators W Config}.

(** Inside the scope nothing calls the deferred function and nothing
    moves the namespace. *)
Lemma negotiate_frame (cfg : Config) (c : client W) st :
  store c = Some st ->
  deferred_runs (emitted (negotiate cfg c)) = 0%nat /\
  namespace (handle (final (negotiate cfg c))) = namespace (handle c).
Proof.
  intros Hst. rewrite negotiate_cases.
  destruct (checkToken_frame c) as (Hs & Hh & Hev & _).
  destruct (bool_decide (token (handle c) <> "")).
  - cbn zeta. destruct (res (checkToken c)) as [[[|] err]|p];
      cbn [res final emitted]; rewrite ?deferred_runs_app, Hev.
    + split; [reflexivity | congruence].
    + assert (Hs2 : store (final (checkToken c)) = Some st) by congruence.
      destruct (walk_run cfg priority _ st Hs2) as (r & _ & _ & _ & Hns & Hd & _).
      rewrite Hd. split; [reflexivity | congruence].
    + split; [reflexivity | congruence].
  - cbn [res final emitted].
    destruct (walk_run cfg priority _ st Hst) as (r & _ & _ & _ & Hns & Hd & _).
    split; assumption.
Qed.

(** The walk sets no namespace and restores none. *)
Lemma walk_namespace_quiet (cfg : Config) (ms : list mechanism) (c : client W) st :
  store c = Some st ->
  namespace_sets (emitted (walk cfg ms c)) = [] /\
  restorations (emitted (walk cfg ms c)) = [].
Proof.
  revert c. induction ms as [|m ms IH]; intros c Hst.
  - split; reflexivity.
  - destruct (strategy_of cfg m st (namespace (handle c)) (token (handle c)) (world c))
      as [[attempted err] [tok w]] eqn:Hf.
    rewrite (walk_step cfg m ms c st attempted err tok w Hst Hf).
    destruct attempted; cbn [emitted].
    + split; [reflexivity|]. destruct m; reflexivity.
    + match goal with
      | |- context [walk cfg ms ?c'] => destruct (IH c') as [Hn Hr]; [exact Hst|]
      end.
      split; assumption.
Qed.

(** Neither does anything else inside the scope. *)
Lemma negotiate_namespace_quiet (cfg : Config) (c : client W) st :
  store c = Some st ->
  namespace_sets (emitted (negotiate cfg c)) = [] /\
  restorations (emitted (negotiate cfg c)) = [].
Proof.
  intros Hst. rewrite negotiate_cases.
  destruct (checkToken_frame c) as (Hs & _ & Hev & _).
  destruct (bool_decide (token (handle c) <> "")).
  - cbn zeta. destruct (res (checkToken c)) as [[[|] err]|p];
      cbn [res final emitted]; rewrite ?Hev.
    + split; reflexivity.
    + assert (Hs2 : store (final (checkToken c)) = Some st) by congruence.
      destruct (walk_namespace_quiet cfg priority _ st Hs2) as [Hn Hr].
      split; [exact Hn | exact Hr].
    + split; reflexivity.
  - cbn [res final emitted]. exact (walk_namespace_quiet cfg priority _ st Hst).
Qed.

(** Lines 50 to 55, event by event. *)
Lemma enter_scope_exact (c : client W) st auth :
  store c = Some st ->
  VaultProvider.Auth st = Some auth ->
  bind
    match VaultProvider.Namespace st with
    | Some ns => SetNamespace ns
    | None => ret tt
    end
    (fun _ => useAuthNamespace) c
  = {| res := Val match scope_switch st auth with
                  | Some _ => restore_to (operating_namespace st)
                  | None => no_op
                  end;
       final := entered st c;
       emitted :=
         match VaultProvider.Namespace st with
         | Some ns => [EvSetNamespace ns]
         | None => []
         end ++
         match scope_switch st auth with
         | Some authNs =>
             [EvLogInfo "Using namespace=%s for the vault login" [authNs];
              EvSetNamespace authNs]
         | None => []
         end |}.
Proof.
  intros Hst Hauth.
  destruct c as [s [ns tok] w]. simpl in Hst. subst s.
  unfold bind, useAuthNamespace, entered, login_namespace, scope_switch,
    operating_namespace.
  destruct st as [opNs a]. simpl in Hauth. subst a.
  destruct auth as [authNs]. simpl.
  destruct opNs as [opNs|]; destruct authNs as [authNs|]; simpl;
    try case_bool_decide; reflexivity.
Qed.

(** The namespace calls of a run of [setAuth] with auth configured: the
    entry of the scope, then a part that sets no namespace, restores
    none and calls no deferred function, then the call of the deferred
    function and what that function does, and nothing after it. *)
Lemma setAuth_namespace_calls (cfg : Config) (c : client W) st auth :
  store c = Some st ->
  VaultProvider.Auth st = Some auth ->
  let o := setAuth cfg c in
  namespace_sets (emitted o) =
    match VaultProvider.Namespace st with
    | Some ns => [ns]
    | None => []
    end ++
    match scope_switch st auth with
    | Some authNs => [authNs; operating_namespace st]
    | None => []
    end /\
  restorations (emitted o) =
    match scope_switch st auth with
    | Some _ => [[operating_namespace st]]
    | None => []
    end /\
  exists inner,
    emitted o =
      (match VaultProvider.Namespace st with
       | Some ns => [EvSetNamespace ns]
       | None => []
       end ++
       match scope_switch st auth with
       | Some authNs =>
           [EvLogInfo "Using namespace=%s for the vault login" [authNs];
            EvSetNamespace authNs]
       | None => []
       end) ++
      inner ++
      EvRunDeferred ::
      match scope_switch st auth with
      | Some _ =>
          [EvLogInfo "Restoring client namespace to namespace=%s"
             [operating_namespace st];
           EvSetNamespace (operating_namespace st)]
      | None => []
      end /\
    namespace_sets inner = [] /\
    restorations inner = [] /\
    deferred_runs inner = 0%nat.
Proof.
  intros Hst Hauth. cbn zeta.
  pose proof (enter_scope_exact c st auth Hst Hauth) as Heq.
  assert (Hst1 : store (entered st c) = Some st) by exact Hst.
  destruct (negotiate_namespace_quiet cfg (entered st c) st Hst1) as [Hn Hr].
  destruct (negotiate_frame cfg (entered st c) st Hst1) as [Hd _].
  assert (Hrun : setAuth cfg c =
    {| res := res (negotiate cfg (entered st c));
       final := final
         (match scope_switch st auth with
          | Some _ => restore_to (operating_namespace st)
          | None => no_op
          end (final (negotiate cfg (entered st c))));
       emitted :=
         (match VaultProvider.Namespace st with
          | Some ns => [EvSetNamespace ns]
          | None => []
          end ++
          match scope_switch st auth with
          | Some authNs =>
              [EvLogInfo "Using namespace=%s for the vault login" [authNs];
               EvSetNamespace authNs]
          | None => []
          end) ++
         emitted (negotiate cfg (entered st c)) ++
         EvRunDeferred ::
         match scope_switch st auth with
         | Some _ =>
             [EvLogInfo "Restoring client namespace to namespace=%s"
                [operating_namespace st];
              EvSetNamespace (operating_namespace st)]
         | None => []
         end |}).
  { rewrite setAuth_walks_priority, Hst, Hauth, bind_assoc.
    rewrite (bind_val _ _ _ _ _ _ Heq).
    unfold defer. rewrite bind_unfold. cbn [emit res final emitted].
    destruct (scope_switch st auth); reflexivity. }
  rewrite Hrun. cbn [emitted].
  split; [|split].
  - unfold namespace_sets in *. rewrite !omap_app, Hn.
    destruct (VaultProvider.Namespace st); destruct (scope_switch st auth);
      reflexivity.
  - unfold restorations in *. rewrite !omap_app, Hr.
    destruct (VaultProvider.Namespace st); destruct (scope_switch st auth);
      reflexivity.
  - exists (emitted (negotiate cfg (entered st c))).
    split; [reflexivity|]. split; [exact Hn|]. split; [exact Hr | exact Hd].
Qed.

(** C1. A session that holds a token whose self-lookup answers with a
    type other than "batch", a ttl of at least 60 and an [expire_time]
    field: [setAuth] returns nil and calls no strategy. *)
Theorem setAuth_reuses_valid_token (cfg : Config) (c : client W) st
    (resp : Secret) (ty n : string) (ttl : Z) (expireTime : value) :
  store c = Some st ->
  token (handle c) <> "" ->
  (LookupSelfWithContext
     (login_namespace st (handle c)) (token (handle c)) (world c)).1
    = (Some resp, None) ->
  Data resp !! "type" = Some (VString ty) ->
  ty <> "batch" ->
  Data resp !! "ttl" = Some (VNumber n) ->
  Int64 n = (ttl, None) ->
  60 <= ttl ->
  Data resp !! "expire_time" = Some expireTime ->
  res (setAuth cfg c) = Val None /\
  reports (emitted (setAuth cfg c)) = [].
Proof.
  intros Hst Htok Hl Hty Hnb Httl Hn Hge Hexp.
  destruct (VaultProvider.Auth st) as [auth|] eqn:Hauth.
  2:{ rewrite setAuth_walks_priority, Hst, Hauth. split; reflexivity. }
  destruct (setAuth_scoped cfg c st auth Hst Hauth)
    as (pre & restore & Heq & Hr & _ & _ & Hcases).
  cbn zeta in Heq. rewrite Heq. cbn [res emitted].
  assert (Hrest : restore = no_op \/ restore = restore_to (operating_namespace st))
    by (destruct Hcases as [[-> _] | [-> _]]; auto).
  destruct (restore_run restore _ (final (negotiate cfg (entered st c))) Hrest)
    as (_ & Hr' & _).
  rewrite !reports_app, reports_cons, Hr, Hr'. cbn [report_of].
  assert (Hck : res (checkToken (entered st c)) = Val (true, None)).
  { apply (checkToken_valid _ resp ty n ttl expireTime); auto. }
  destruct (checkToken_frame (entered st c)) as (_ & _ & Hev & _).
  rewrite negotiate_cases.
  change (token (handle (entered st c))) with (token (handle c)).
  rewrite bool_decide_eq_true_2 by exact Htok.
  cbn zeta. rewrite Hck. cbn [res emitted].
  rewrite reports_app, Hev. split; reflexivity.
Qed.

(** The shape of the strategy calls of any run of [setAuth]: an initial
    segment of the fixed order, ended by the first report of an attempt. *)
Lemma setAuth_priority_shape (cfg : Config) (c : client W) :
  let o := setAuth cfg c in
  let calls := reports (emitted o) in
  mechanism_of <$> calls `prefix_of` priority /\
  (forall i m err, calls !! i = Some (m, true, err) ->
     length calls = S i /\ res o = Val err) /\
  (forall i m err, calls !! i = Some (m, false, err) -> m <> Iam ->
     is_Some (calls !! S i)) /\
  (forall st auth, store c = Some st -> VaultProvider.Auth st = Some auth ->
     ~ reused (emitted o) -> (forall p, res o <> Panicked p) ->
     exists attempted err, calls !! 0%nat = Some (SecretKey, attempted, err)) /\
  ((forall st ns tok w, (setAppRoleToken st ns tok w).1.1 = true) ->
   forall attempted err, (Kubernetes, attempted, err) ∉ calls) /\
  (forall st auth, store c = Some st -> VaultProvider.Auth st = Some auth ->
     ~ reused (emitted o) -> (forall p, res o <> Panicked p) ->
     (forall st ns tok w, (setSecretKeyToken st ns tok w).1.1 = false) ->
     (forall st ns tok w, (setAppRoleToken st ns tok w).1.1 = true) ->
     (forall st ns tok w, (setKubernetesAuthToken st ns tok w).1.1 = true) ->
     exists e1 e2,
       calls = [(SecretKey, false, e1); (AppRole, true, e2)] /\ res o = Val e2).
Proof.
  cbn zeta.
  destruct (setAuth_trace cfg c) as [[Hnil Hwhy] | (r & Hrun & Hres & Hnu & Hgen)].
  - rewrite Hnil. repeat split.
    + apply prefix_nil.
    + discriminate.
    + discriminate.
    + discriminate.
    + intros st auth Hst Hauth Hnot Hnp. exfalso.
      destruct Hwhy as [H | [(st' & H1 & H2) | [[H _] | [p H]]]].
      * congruence.
      * congruence.
      * exact (Hnot H).
      * exact (Hnp p H).
    + intros _ attempted err. apply not_elem_of_nil.
    + intros st auth Hst Hauth Hnot Hnp. exfalso.
      destruct Hwhy as [H | [(st' & H1 & H2) | [[H _] | [p H]]]].
      * congruence.
      * congruence.
      * exact (Hnot H).
      * exact (Hnp p H).
  - pose proof (chain_run_prefix _ _ _ Hrun) as Hpre.
    assert (Hat : forall i m, (mechanism_of <$> reports (emitted (setAuth cfg c))) !! i = Some m ->
                    priority !! i = Some m).
    { intros i m Hi. exact (prefix_lookup_Some _ _ _ _ Hi Hpre). }
    assert (Hmech : forall i m a e, reports (emitted (setAuth cfg c)) !! i = Some (m, a, e) ->
                    priority !! i = Some m).
    { intros i m a e Hi. apply Hat. rewrite list_lookup_fmap, Hi. reflexivity. }
    split; [exact Hpre|].
    split.
    { intros i m err Hi.
      destruct (chain_run_attempted _ _ _ _ _ _ Hrun Hi) as [Hlen ->].
      split; assumption. }
    split.
    { intros i m err Hi Hne.
      apply (chain_run_declined _ _ _ _ _ _ Hrun Hi).
      pose proof (Hmech _ _ _ _ Hi) as Hp.
      do 8 (destruct i as [|i]; [simpl in Hp; simpl; try lia; congruence|]).
      discriminate Hp. }
    split.
    { intros _ _ _ _ _ _. exact (chain_run_first _ _ _ _ Hrun). }
    split.
    { intros Happ attempted err Hin.
      apply list_elem_of_lookup in Hin. destruct Hin as [j Hj].
      pose proof (Hmech _ _ _ _ Hj) as Hp.
      assert (j = 2%nat) as ->.
      { do 8 (destruct j as [|j]; [simpl in Hp; congruence|]). discriminate Hp. }
      destruct (lookup_lt_is_Some_2 (reports (emitted (setAuth cfg c))) 1) as [[[m1 a1] e1] H1].
      { apply lookup_lt_Some in Hj. lia. }
      pose proof (Hmech _ _ _ _ H1) as Hm1. simpl in Hm1. injection Hm1 as <-.
      destruct (Hgen AppRole a1 e1) as (st' & ns & tok & w & Hcall).
      { apply list_elem_of_lookup. eauto. }
      specialize (Happ st' ns tok w). simpl in Hcall.
      rewrite Hcall in Happ. simpl in Happ. subst a1.
      destruct (chain_run_attempted _ _ _ _ _ _ Hrun H1) as [Hlen _].
      apply lookup_lt_Some in Hj. lia. }
    intros st auth _ _ _ _ Hsec Happ _.
    unfold priority in Hrun.
    remember (reports (emitted (setAuth cfg c))) as calls eqn:Hcalls.
    clear Hcalls Hpre Hat Hmech.
    inversion Hrun as [| m ms err | m ms e1 calls1 r1 Hrun1]; subst.
    { exfalso. destruct (Hgen SecretKey true r) as (st' & ns & tok & w & Hcall).
      + apply list_elem_of_here.
      + specialize (Hsec st' ns tok w). simpl in Hcall.
        rewrite Hcall in Hsec. discriminate Hsec. }
    inversion Hrun1 as [| m ms err | m ms e2 calls2 r2 Hrun2]; subst.
    { exists e1, r. split; [reflexivity | exact Hres]. }
    exfalso. destruct (Hgen AppRole false e2) as (st' & ns & tok & w & Hcall).
    + apply list_elem_of_further, list_elem_of_here.
    + specialize (Happ st' ns tok w). simpl in Hcall.
      rewrite Hcall in Happ. discriminate Happ.
Qed.

(** C2. [setAuth] applies the strategies in the fixed order:
    secret-reference token, AppRole, Kubernetes, LDAP, username/password,
    JWT, client certificate, cloud IAM. The strategies it calls are an
    initial segment of that order; a report of an attempt is the last
    call and its error is what [setAuth] returns; after a strategy that
    declined the next one is called. When no token is held, or the token
    held is not reported valid, the run is the walk over that order told
    by the strategy functions themselves: each is applied, under the
    login namespace, to the token and the world the one before it has
    left, the first that returns [attempted = true] ends the walk, its
    error is returned and its token and world are those of the client on
    return. In particular, with AppRole and Kubernetes both reporting an
    attempt and the secret-reference strategy declining, AppRole is
    applied, its error is returned, and Kubernetes is not called. *)
Theorem setAuth_priority_order (cfg : Config) (c : client W) :
  let o := setAuth cfg c in
  let calls := reports (emitted o) in
  mechanism_of <$> calls `prefix_of` priority /\
  (forall i m err, calls !! i = Some (m, true, err) ->
     length calls = S i /\ res o = Val err) /\
  (forall i m err, calls !! i = Some (m, false, err) -> m <> Iam ->
     is_Some (calls !! S i)) /\
  (forall st auth, store c = Some st -> VaultProvider.Auth st = Some auth ->
     ~ reused (emitted o) -> (forall p, res o <> Panicked p) ->
     exists attempted err, calls !! 0%nat = Some (SecretKey, attempted, err)) /\
  ((forall st ns tok w, (setAppRoleToken st ns tok w).1.1 = true) ->
   forall attempted err, (Kubernetes, attempted, err) ∉ calls) /\
  (forall st auth, store c = Some st -> VaultProvider.Auth st = Some auth ->
     ~ reused (emitted o) -> (forall p, res o <> Panicked p) ->
     (forall st ns tok w, (setSecretKeyToken st ns tok w).1.1 = false) ->
     (forall st ns tok w, (setAppRoleToken st ns tok w).1.1 = true) ->
     (forall st ns tok w, (setKubernetesAuthToken st ns tok w).1.1 = true) ->
     exists e1 e2,
       calls = [(SecretKey, false, e1); (AppRole, true, e2)] /\ res o = Val e2) /\
  (forall st auth, store c = Some st -> VaultProvider.Auth st = Some auth ->
     token (handle c) = "" \/
       (exists err, res (checkToken (entered st c)) = Val (false, err)) ->
     exists r,
       res o = Val r /\
       chain_calls cfg st (login_namespace st (handle c)) priority
         (token (handle c), chain_entry_world st c)
         calls r
         (token (handle (final o)), world (final o))) /\
  (forall st auth, store c = Some st -> VaultProvider.Auth st = Some auth ->
     token (handle c) = "" \/
       (exists err, res (checkToken (entered st c)) = Val (false, err)) ->
     (forall st ns tok w, (setSecretKeyToken st ns tok w).1.1 = false) ->
     (forall st ns tok w, (setAppRoleToken st ns tok w).1.1 = true) ->
     (forall st ns tok w, (setKubernetesAuthToken st ns tok w).1.1 = true) ->
     exists e1 tok1 w1 e2 s2,
       setSecretKeyToken st (login_namespace st (handle c))
         (token (handle c)) (chain_entry_world st c) = ((false, e1), (tok1, w1)) /\
       setAppRoleToken st (login_namespace st (handle c)) tok1 w1
         = ((true, e2), s2) /\
       calls = [(SecretKey, false, e1); (AppRole, true, e2)] /\
       res o = Val e2 /\
       (token (handle (final o)), world (final o)) = s2).
Proof.
  cbn zeta.
  destruct (setAuth_priority_shape cfg c) as (Ha & Hb & Hc & Hd & He & Hf).
  cbn zeta in Ha, Hb, Hc, Hd, He, Hf.
  refine (conj Ha (conj Hb (conj Hc (conj Hd (conj He (conj Hf (conj _ _))))))).
  - intros st auth Hst Hauth Hchain.
    exact (setAuth_chain_calls cfg c st auth Hst Hauth Hchain).
  - intros st auth Hst Hauth Hchain Hsec Happ _.
    destruct (setAuth_chain_calls cfg c st auth Hst Hauth Hchain)
      as (r & Hres & Hcalls).
    remember (reports (emitted (setAuth cfg c))) as calls eqn:Heqcalls.
    remember (token (handle (final (setAuth cfg c))), world (final (setAuth cfg c)))
      as s2 eqn:Heqs2.
    clear Heqcalls Heqs2 Ha Hb Hc Hd He Hf.
    unfold priority in Hcalls.
    inversion Hcalls as [| m ms tok w err s' Hcall
                         | m ms tok w e1 tok1 w1 calls1 r1 s'' Hcall Hrest]; subst.
    { exfalso. cbn [strategy_of] in Hcall.
      specialize (Hsec st (login_namespace st (handle c)) (token (handle c))
                    (chain_entry_world st c)).
      rewrite Hcall in Hsec. discriminate Hsec. }
    inversion Hrest as [| m ms tok w err s' Hcall2
                        | m ms tok w e2 tok2 w2 calls2 r2 s3 Hcall2 Hrest2]; subst.
    { cbn [strategy_of] in Hcall, Hcall2.
      exists e1, tok1, w1, r, s2. auto. }
    exfalso. cbn [strategy_of] in Hcall2.
    specialize (Happ st (login_namespace st (handle c)) tok1 w1).
    rewrite Hcall2 in Happ. discriminate Happ.
Qed.

(** C6. With no auth configured [setAuth] returns nil at once: no
    namespace switch, no lookup, no strategy call, the client as it was.
    With auth configured, a run in which every strategy reports
    [attempted = false] returns the error "cannot initialize Vault
    client: no valid auth method specified"; so does every run that does
    not re-use a token when all the strategies decline whatever they are
    given. *)
Theorem setAuth_no_auth_or_no_method (cfg : Config) (c : client W) :
  (forall st, store c = Some st -> VaultProvider.Auth st = None ->
     setAuth cfg c = {| res := Val None; final := c; emitted := [] |}) /\
  ((forall m, exists err, (m, false, err) ∈ reports (emitted (setAuth cfg c))) ->
     res (setAuth cfg c) = Val (Some (errors_New errAuthFormat)) /\
     mechanism_of <$> reports (emitted (setAuth cfg c)) = priority /\
     exists st auth, store c = Some st /\ VaultProvider.Auth st = Some auth) /\
  (forall st auth, store c = Some st -> VaultProvider.Auth st = Some auth ->
     ~ reused (emitted (setAuth cfg c)) ->
     (forall p, res (setAuth cfg c) <> Panicked p) ->
     (forall m st' ns tok w, (strategy_of cfg m st' ns tok w).1.1 = false) ->
     res (setAuth cfg c) = Val (Some (errors_New errAuthFormat)) /\
     mechanism_of <$> reports (emitted (setAuth cfg c)) = priority).
Proof.
  split; [|split].
  - intros st Hst Hauth. rewrite setAuth_walks_priority, Hst, Hauth. reflexivity.
  - intros Hall.
    destruct (setAuth_trace cfg c) as [[Hnil _] | (r & Hrun & Hres & _ & _)].
    { destruct (Hall SecretKey) as [err Hin]. cbn zeta in Hnil.
      rewrite Hnil in Hin. apply elem_of_nil in Hin. contradiction. }
    cbn zeta in Hrun, Hres.
    pose proof (chain_run_prefix _ _ _ Hrun) as Hpre.
    assert (Hmech : forall i m a e,
              reports (emitted (setAuth cfg c)) !! i = Some (m, a, e) ->
              priority !! i = Some m).
    { intros i m a e Hi.
      refine (prefix_lookup_Some _ _ _ _ _ Hpre).
      rewrite list_lookup_fmap, Hi. reflexivity. }
    destruct (Hall Iam) as [errI HinI].
    apply list_elem_of_lookup in HinI. destruct HinI as [j Hj].
    assert (j = 7%nat) as ->.
    { pose proof (Hmech _ _ _ _ Hj) as Hp.
      do 8 (destruct j as [|j]; [simpl in Hp; congruence|]). discriminate Hp. }
    assert (Hfalse : forall m a e,
              (m, a, e) ∈ reports (emitted (setAuth cfg c)) -> a = false).
    { intros m a e Hin. destruct a; [|reflexivity]. exfalso.
      apply list_elem_of_lookup in Hin. destruct Hin as [i Hi].
      destruct (chain_run_attempted _ _ _ _ _ _ Hrun Hi) as [Hlen _].
      pose proof (lookup_lt_Some _ _ _ Hj) as Hlt.
      assert (i = 7%nat) as ->.
      { apply prefix_length in Hpre. rewrite length_fmap in Hpre.
        simpl in Hpre. lia. }
      congruence. }
    destruct (chain_run_all_declined _ _ _ Hrun Hfalse) as [Hms ->].
    split; [exact Hres|]. split; [exact Hms|].
    destruct (store c) as [st|] eqn:Hst.
    2:{ rewrite setAuth_walks_priority, Hst in Hres. discriminate Hres. }
    destruct (VaultProvider.Auth st) as [auth|] eqn:Hauth; [eauto|].
    rewrite setAuth_walks_priority, Hst, Hauth in Hres. discriminate Hres.
  - intros st auth Hst Hauth Hnot Hnp Hdecline.
    destruct (setAuth_trace cfg c) as [[_ Hwhy] | (r & Hrun & Hres & _ & Hgen)].
    { exfalso. destruct Hwhy as [H | [(st' & H1 & H2) | [[H _] | [p H]]]];
        [congruence | congruence | exact (Hnot H) | exact (Hnp p H)]. }
    cbn zeta in Hrun, Hres, Hgen.
    assert (Hfalse : forall m a e,
              (m, a, e) ∈ reports (emitted (setAuth cfg c)) -> a = false).
    { intros m a e Hin. destruct (Hgen m a e Hin) as (st' & ns & tok & w & Hcall).
      specialize (Hdecline m st' ns tok w). rewrite Hcall in Hdecline.
      exact Hdecline. }
    destruct (chain_run_all_declined _ _ _ Hrun Hfalse) as [Hms ->].
    split; assumption.
Qed.

(** The namespace of the handle when [setAuth] returns, and the no-op. *)
Lemma setAuth_namespace_on_return (cfg : Config) (c : client W) st auth :
  store c = Some st ->
  VaultProvider.Auth st = Some auth ->
  let o := setAuth cfg c in
  deferred_runs (emitted o) = 1%nat /\
  (VaultProvider.Namespace st <> None ->
     namespace (handle (final o)) = operating_namespace st) /\
  (forall authNs, VaultAuth.Namespace auth = Some authNs ->
     authNs <> operating_namespace st ->
     namespace (handle (final o)) = operating_namespace st) /\
  (VaultProvider.Namespace st = None ->
     VaultAuth.Namespace auth = None \/ VaultAuth.Namespace auth = Some "" ->
     namespace (handle (final o)) = namespace (handle c)) /\
  (VaultAuth.Namespace auth = None \/
   VaultAuth.Namespace auth = Some (operating_namespace st) ->
     forall c0 : client W, store c0 = Some st ->
       useAuthNamespace c0 = {| res := Val no_op; final := c0; emitted := [] |} /\
       forall c1 : client W,
         no_op c1 = {| res := Val tt; final := c1; emitted := [] |}).
Proof.
  intros Hst Hauth. cbn zeta.
  destruct (setAuth_scoped cfg c st auth Hst Hauth)
    as (pre & restore & Heq & _ & Hd & _ & Hcases).
  cbn zeta in Heq. rewrite Heq. cbn [final emitted].
  destruct (negotiate_frame cfg (entered st c) st Hst) as [Hd0 Hns].
  change (namespace (handle (entered st c)))
    with (login_namespace st (handle c)) in Hns.
  split.
  { rewrite !deferred_runs_app, Hd, Hd0.
    destruct Hcases as [[-> _] | [-> _]]; reflexivity. }
  split.
  { intros Hop. destruct Hcases as [[-> Hno] | [-> _]]; [|reflexivity].
    cbn [no_op ret final]. rewrite Hns. unfold login_namespace. rewrite Hauth.
    unfold operating_namespace in *.
    destruct (VaultProvider.Namespace st) as [opNs|]; [|congruence].
    destruct Hno as [-> | ->]; [reflexivity|].
    rewrite bool_decide_eq_false_2 by auto. reflexivity. }
  split.
  { intros authNs Ha Hne. destruct Hcases as [[_ Hno] | [-> _]]; [|reflexivity].
    exfalso. destruct Hno as [Hno | Hno]; congruence. }
  split.
  { intros Hop Hno'. destruct Hcases as [[-> _] | [_ (authNs & Ha & Hne)]].
    - cbn [no_op ret final]. rewrite Hns. unfold login_namespace. rewrite Hauth.
      unfold operating_namespace. rewrite Hop.
      destruct Hno' as [-> | ->]; [reflexivity|].
      rewrite bool_decide_eq_false_2 by auto. reflexivity.
    - exfalso. unfold operating_namespace in Hne. rewrite Hop in Hne.
      destruct Hno' as [Hno' | Hno']; congruence. }
  intros Hno c0 Hst0. split; [|reflexivity].
  unfold useAuthNamespace. rewrite Hst0, Hauth.
  destruct Hno as [-> | ->]; [reflexivity|].
  fold (operating_namespace st).
  rewrite bool_decide_eq_false_2 by auto. reflexivity.
Qed.

(** C7, as the code has it. On every exit path of [setAuth] after the
    scope is entered, panics included, the function [useAuthNamespace]
    returned runs exactly once, as the last thing before the return: the
    trace of the run is the entry of the scope, a part that sets no
    namespace and logs no restoration, the call of the deferred function,
    and what that function does (after a switch: one "Restoring client
    namespace" message and one [SetNamespace] of the operating namespace;
    nothing otherwise), so the namespaces set in the run are exactly those
    of the entry followed by that one restoration. On return the
    namespace of the handle is the operating namespace when one is set,
    and also when the auth namespace differs from the operating
    namespace; with no operating namespace and no auth namespace (or an
    empty one) it is the namespace the handle had on entry. When the auth
    namespace equals the operating namespace or none is configured, the
    function returned is a no-op. *)
Theorem setAuth_restores_namespace (cfg : Config) (c : client W) st auth :
  store c = Some st ->
  VaultProvider.Auth st = Some auth ->
  let o := setAuth cfg c in
  deferred_runs (emitted o) = 1%nat /\
  (VaultProvider.Namespace st <> None ->
     namespace (handle (final o)) = operating_namespace st) /\
  (forall authNs, VaultAuth.Namespace auth = Some authNs ->
     authNs <> operating_namespace st ->
     namespace (handle (final o)) = operating_namespace st) /\
  (VaultProvider.Namespace st = None ->
     VaultAuth.Namespace auth = None \/ VaultAuth.Namespace auth = Some "" ->
     namespace (handle (final o)) = namespace (handle c)) /\
  (VaultAuth.Namespace auth = None \/
   VaultAuth.Namespace auth = Some (operating_namespace st) ->
     forall c0 : client W, store c0 = Some st ->
       useAuthNamespace c0 = {| res := Val no_op; final := c0; emitted := [] |} /\
       forall c1 : client W,
         no_op c1 = {| res := Val tt; final := c1; emitted := [] |}) /\
  namespace_sets (emitted o) =
    match VaultProvider.Namespace st with
    | Some ns => [ns]
    | None => []
    end ++
    match scope_switch st auth with
    | Some authNs => [authNs; operating_namespace st]
    | None => []
    end /\
  restorations (emitted o) =
    match scope_switch st auth with
    | Some _ => [[operating_namespace st]]
    | None => []
    end /\
  exists inner,
    emitted o =
      (match VaultProvider.Namespace st with
       | Some ns => [EvSetNamespace ns]
       | None => []
       end ++
       match scope_switch st auth with
       | Some authNs =>
           [EvLogInfo "Using namespace=%s for the vault login" [authNs];
            EvSetNamespace authNs]
       | None => []
       end) ++
      inner ++
      EvRunDeferred ::
      match scope_switch st auth with
      | Some _ =>
          [EvLogInfo "Restoring client namespace to namespace=%s"
             [operating_namespace st];
           EvSetNamespace (operating_namespace st)]
      | None => []
      end /\
    namespace_sets inner = [] /\
    restorations inner = [] /\
    deferred_runs inner = 0%nat.
Proof.
  intros Hst Hauth. cbn zeta.
  destruct (setAuth_namespace_on_return cfg c st auth Hst Hauth)
    as (Ha & Hb & Hc & Hd & He).
  destruct (setAuth_namespace_calls cfg c st auth Hst Hauth) as (Hf & Hg & Hh).
  cbn zeta in Ha, Hb, Hc, Hd, He, Hf, Hg, Hh.
  exact (conj Ha (conj Hb (conj Hc (conj Hd (conj He (conj Hf (conj Hg Hh))))))).
Qed.

End OrchestratorClaims.

(** ** SessionRevoker: revokeTokenIfValid *)

Section Revoker.

Context {W Config : Type} {collab : Collaborators W Config}.

(** [revokeTokenIfValid], by what the validation and the revocation
    answer. *)
Lemma revokeTokenIfValid_cases (c : client W) :
  revokeTokenIfValid c =
    let o := checkToken c in
    match res o with
    | Val (_, Some e) =>
        {| res := Val (Some (fmt_Errorf errVaultRevokeToken [] e));
           final := final o; emitted := emitted o |}
    | Val (false, None) =>
        {| res := Val None; final := final o; emitted := emitted o |}
    | Val (true, None) =>
        let c1 := final o in
        let ns := namespace (handle c1) in
        let tok := token (handle c1) in
        let answer := RevokeSelfWithContext ns tok (world c1) in
        match answer.1 with
        | Some e =>
            {| res := Val (Some (fmt_Errorf errVaultRevokeToken [] e));
               final := with_world answer.2 c1;
               emitted := emitted o ++
                 [EvRevokeSelf ns tok;
                  EvObserveAPICall CallHCVaultRevokeSelf (Some e)] |}
        | None =>
            {| res := Val None;
               final := with_handle {| namespace := ns; token := "" |}
                          (with_world answer.2 c1);
               emitted := emitted o ++
                 [EvRevokeSelf ns tok;
                  EvObserveAPICall CallHCVaultRevokeSelf None;
                  EvClearToken] |}
        end
    | Panicked p =>
        {| res := Panicked p; final := final o; emitted := emitted o |}
    end.
Proof.
  unfold revokeTokenIfValid. rewrite bind_unfold. cbn zeta.
  destruct (checkToken c) as [[[valid [e|]]|p] c1 evs]; cbn [res final emitted].
  - rewrite app_nil_r. destruct valid; reflexivity.
  - destruct valid; [|rewrite app_nil_r; reflexivity].
    unfold bind, Token, RevokeSelf, ObserveAPICall, ClearToken, emit, ret.
    cbn [res final emitted].
    destruct (RevokeSelfWithContext _ _ _) as [[e|] w]; reflexivity.
  - reflexivity.
Qed.


(** C8, as the code has it. After a first call on a valid token whose
    revocation succeeds, the result is nil and the credential is empty.
    The second call looks the cleared credential up again: it returns
    nil and leaves the credential empty when the lookup reports the
    token invalid without error, and returns the wrapped error when the
    lookup fails. *)
Theorem revokeTokenIfValid_twice (c : client W) :
  res (checkToken c) = Val (true, None) ->
  (RevokeSelfWithContext
     (namespace (handle c)) (token (handle c)) (world (final (checkToken c)))).1
    = None ->
  let o1 := revokeTokenIfValid c in
  let o2 := revokeTokenIfValid (final o1) in
  res o1 = Val None /\
  token (handle (final o1)) = "" /\
  (res (checkToken (final o1)) = Val (false, None) ->
     res o2 = Val None /\ token (handle (final o2)) = "") /\
  (forall e, (lookup_answer (final o1)).2 = Some e ->
     res o2 = Val (Some (fmt_Errorf errVaultRevokeToken [] e))).
Proof.
  intros Hvalid Hrevoke. cbn zeta.
  destruct (checkToken_frame c) as (_ & Hh & _).
  assert (H1 : res (revokeTokenIfValid c) = Val None /\
               token (handle (final (revokeTokenIfValid c))) = "").
  { rewrite revokeTokenIfValid_cases. cbn zeta. rewrite Hvalid, Hh, Hrevoke.
    split; reflexivity. }
  destruct H1 as [Hres1 Htok1].
  split; [exact Hres1|]. split; [exact Htok1|].
  set (c1 := final (revokeTokenIfValid c)) in *.
  destruct (checkToken_frame c1) as (_ & Hh1 & _).
  split.
  - intros Hinvalid. rewrite revokeTokenIfValid_cases. cbn zeta.
    rewrite Hinvalid. cbn [res final]. rewrite Hh1. split; [reflexivity | exact Htok1].
  - intros e He. rewrite revokeTokenIfValid_cases. cbn zeta.
    assert (Hck : res (checkToken c1) = Val (false, Some e)).
    { unfold lookup_answer in He.
      unfold checkToken, bind, LookupSelf, ObserveAPICall, emit.
      destruct (LookupSelfWithContext _ _ _) as [[resp err] w].
      simpl in He. subst err. reflexivity. }
    rewrite Hck. reflexivity.
Qed.

End Revoker.

(** ** createServiceAccountToken *)

(** C9. The request [createServiceAccountToken] sends has, as a set, the
    audiences of the service-account reference together with the
    additional ones, and the expiration the caller gave. It is sent to the
    namespace of the reference when the store kind is ClusterSecretStore
    and the reference has one, and to the namespace passed in otherwise. *)
Theorem createServiceAccountToken_request
    (CreateToken : string -> string -> TokenRequest.t ->
                   option TokenRequest.t * option error)
    (storeKind namespace : string) (serviceAccountRef : ServiceAccountSelector.t)
    (additionalAud : list string) (expirationSeconds : Z) :
  let call :=
    (createServiceAccountToken CreateToken storeKind namespace serviceAccountRef
       additionalAud expirationSeconds).1 in
  let request := call_request call in
  list_to_set (TokenRequest.Audiences request) =@{gset string}
    list_to_set (ServiceAccountSelector.Audiences serviceAccountRef)
      ∪ list_to_set additionalAud /\
  TokenRequest.ExpirationSeconds request = Some expirationSeconds /\
  call_name call = ServiceAccountSelector.Name serviceAccountRef /\
  call_namespace call = TokenRequest.Namespace request /\
  (forall ns, storeKind = ClusterSecretStoreKind ->
     ServiceAccountSelector.Namespace serviceAccountRef = Some ns ->
     TokenRequest.Namespace request = ns) /\
  (storeKind <> ClusterSecretStoreKind \/
   ServiceAccountSelector.Namespace serviceAccountRef = None ->
     TokenRequest.Namespace request = namespace).
Proof.
  cbn zeta. unfold createServiceAccountToken.
  destruct (CreateToken _ _ _) as [tokenResponse err]. cbn [fst call_request call_name call_namespace].
  assert (Haud :
    list_to_set (if (0 <? length additionalAud)%nat
                 then ServiceAccountSelector.Audiences serviceAccountRef ++ additionalAud
                 else ServiceAccountSelector.Audiences serviceAccountRef)
    =@{gset string}
    list_to_set (ServiceAccountSelector.Audiences serviceAccountRef)
      ∪ list_to_set additionalAud).
  { destruct additionalAud as [|a l]; simpl.
    - rewrite right_id_L; [reflexivity | apply _].
    - change (a :: l) with ([a] ++ l) at 1.
      rewrite list_to_set_app_L. simpl. set_solver. }
  case_bool_decide as Hkind;
    destruct (ServiceAccountSelector.Namespace serviceAccountRef) as [refNs|];
    cbn [TokenRequest.Audiences TokenRequest.ExpirationSeconds TokenRequest.Namespace];
    (split; [exact Haud|]); repeat split; try congruence.
  all: intros [H | H]; congruence.
Qed.

(** * The properties on concrete sessions *)

Lemma checkToken_batch_witness :
  res (checkToken (collab := Fixture.answering Fixture.batch) Fixture.holder)
    = Val (false, None).
Proof.
  apply (checkToken_batch (collab := Fixture.answering Fixture.batch)
           Fixture.holder Fixture.batch); reflexivity.
Defined.

Lemma checkToken_expiry_buffer_witness :
  res (checkToken (collab := Fixture.answering Fixture.expiring) Fixture.holder)
    = Val (false, None).
Proof.
  apply (checkToken_expiry_buffer (collab := Fixture.answering Fixture.expiring)
           Fixture.holder Fixture.expiring "service" "59" 59
           (VString "2026-01-01T00:00:00Z"));
    try reflexivity; discriminate.
Defined.

(** A root token has a ttl of 0 and no expiration time: it is valid. *)
Example checkToken_root_valid :
  res (checkToken (collab := Fixture.answering Fixture.root) Fixture.holder)
    = Val (true, None).
Proof. reflexivity. Qed.

Lemma checkToken_missing_field_witness :
  res (checkToken (collab := Fixture.answering Fixture.no_ttl) Fixture.holder)
    = Val (false, Some (errors_New "no TTL found in response")).
Proof.
  apply (proj1 (proj2
           (checkToken_missing_field (collab := Fixture.answering Fixture.no_ttl)
              Fixture.holder Fixture.no_ttl eq_refl)) "service");
    try reflexivity; discriminate.
Defined.

(** C4 does not hold for every response: one that lacks the [ttl] field
    and whose type is "batch" yields [(false, nil)], not an error. *)
Lemma checkToken_missing_ttl_batch :
  Data Fixture.batch_no_ttl !! "ttl" = None /\
  res (checkToken (collab := Fixture.answering Fixture.batch_no_ttl) Fixture.holder)
    = Val (false, None).
Proof. split; reflexivity. Qed.

Lemma setAuth_reuses_valid_token_witness :
  res (setAuth (collab := Fixture.vault) tt Fixture.holder) = Val None /\
  reports (emitted (setAuth (collab := Fixture.vault) tt Fixture.holder)) = [].
Proof.
  apply (setAuth_reuses_valid_token (collab := Fixture.vault) tt Fixture.holder
           (Fixture.provider (Some "team-a") (Some "login"))
           Fixture.fresh "service" "3600" 3600 (VString "2026-01-01T00:00:00Z"));
    try reflexivity; try discriminate; lia.
Defined.

Lemma setAuth_priority_order_witness :
  exists e1 tok1 w1 e2 s2,
    setSecretKeyToken (Collaborators := Fixture.vault)
      (Fixture.provider None None) "team-a" "" tt = ((false, e1), (tok1, w1)) /\
    setAppRoleToken (Collaborators := Fixture.vault)
      (Fixture.provider None None) "team-a" tok1 w1 = ((true, e2), s2) /\
    reports (emitted (setAuth (collab := Fixture.vault) tt Fixture.newcomer))
      = [(SecretKey, false, e1); (AppRole, true, e2)] /\
    res (setAuth (collab := Fixture.vault) tt Fixture.newcomer) = Val e2 /\
    (token (handle (final (setAuth (collab := Fixture.vault) tt Fixture.newcomer))),
     world (final (setAuth (collab := Fixture.vault) tt Fixture.newcomer))) = s2.
Proof.
  destruct (setAuth_priority_order (collab := Fixture.vault) tt Fixture.newcomer)
    as (_ & _ & _ & _ & _ & _ & _ & H).
  apply (H (Fixture.provider None None) {| VaultAuth.Namespace := None |});
    try reflexivity.
  left. reflexivity.
Defined.

(** On that run the secret-reference strategy declines, AppRole logs in,
    and the client returns with the token AppRole granted. *)
Example setAuth_approle_before_kubernetes :
  reports (emitted (setAuth (collab := Fixture.vault) tt Fixture.newcomer))
    = [(SecretKey, false, None); (AppRole, true, None)] /\
  token (handle (final (setAuth (collab := Fixture.vault) tt Fixture.newcomer)))
    = "s.granted".
Proof. split; reflexivity. Qed.

Lemma setAuth_no_auth_or_no_method_witness :
  setAuth (collab := Fixture.vault) tt Fixture.anonymous
    = {| res := Val None; final := Fixture.anonymous; emitted := [] |} /\
  res (setAuth (collab := Fixture.unconfigured) tt Fixture.newcomer)
    = Val (Some (errors_New errAuthFormat)).
Proof.
  split.
  - apply (proj1 (setAuth_no_auth_or_no_method (collab := Fixture.vault)
                    tt Fixture.anonymous)
             {| VaultProvider.Namespace := Some "team-a";
                VaultProvider.Auth := None |}); reflexivity.
  - apply (proj1 (proj2 (setAuth_no_auth_or_no_method
                           (collab := Fixture.unconfigured) tt Fixture.newcomer))).
    intros m. exists None. destruct m; vm_compute; repeat constructor.
Defined.

Lemma setAuth_restores_namespace_witness :
  deferred_runs (emitted (setAuth (collab := Fixture.vault) tt Fixture.holder))
    = 1%nat /\
  namespace (handle (final (setAuth (collab := Fixture.vault) tt Fixture.holder)))
    = "team-a" /\
  namespace_sets (emitted (setAuth (collab := Fixture.vault) tt Fixture.holder))
    = ["team-a"; "login"; "team-a"] /\
  restorations (emitted (setAuth (collab := Fixture.vault) tt Fixture.holder))
    = [["team-a"]].
Proof.
  destruct (setAuth_restores_namespace (collab := Fixture.vault) tt Fixture.holder
              (Fixture.provider (Some "team-a") (Some "login"))
              {| VaultAuth.Namespace := Some "login" |} eq_refl eq_refl)
    as (Honce & Hns & _ & _ & _ & Hsets & Hrest & _).
  split; [exact Honce|]. split; [apply Hns; discriminate|].
  split; [exact Hsets | exact Hrest].
Defined.

(** C7 does not hold for every configuration: with no operating namespace
    and no auth namespace the handle keeps the namespace it was created
    under, here "team-a", and is not moved to the empty operating
    namespace. *)
Lemma setAuth_keeps_entry_namespace :
  VaultProvider.Namespace (Fixture.provider None None) = None /\
  res (setAuth (collab := Fixture.vault) tt Fixture.newcomer) = Val None /\
  namespace (handle (final (setAuth (collab := Fixture.vault) tt Fixture.newcomer)))
    <> operating_namespace (Fixture.provider None None).
Proof. repeat split. discriminate. Qed.

Lemma revokeTokenIfValid_twice_witness :
  res (revokeTokenIfValid (collab := Fixture.double) Fixture.holder) = Val None /\
  token (handle (final (revokeTokenIfValid (collab := Fixture.double) Fixture.holder)))
    = "" /\
  res (revokeTokenIfValid (collab := Fixture.double)
         (final (revokeTokenIfValid (collab := Fixture.double) Fixture.holder)))
    = Val None.
Proof.
  destruct (revokeTokenIfValid_twice (collab := Fixture.double) Fixture.holder
              eq_refl eq_refl) as (H1 & Hempty & H2 & _).
  split; [exact H1|]. split; [exact Hempty|]. apply H2. reflexivity.
Defined.

(** C8 does not hold for every backend: the first call revokes and clears
    the credential; the second call looks the empty credential up, the
    server rejects the lookup, and the call returns that error. *)
Lemma revokeTokenIfValid_twice_fails :
  res (revokeTokenIfValid (collab := Fixture.vault) Fixture.holder) = Val None /\
  token (handle (final (revokeTokenIfValid (collab := Fixture.vault) Fixture.holder)))
    = "" /\
  res (revokeTokenIfValid (collab := Fixture.vault)
         (final (revokeTokenIfValid (collab := Fixture.vault) Fixture.holder)))
    = Val (Some (fmt_Errorf errVaultRevokeToken []
                   (errors_New "missing client token"))).
Proof. repeat split. Qed.


Lemma createServiceAccountToken_request_witness :
  TokenRequest.Namespace
    (call_request
       (createServiceAccountToken Fixture.grant "ClusterSecretStore" "default"
          Fixture.workload ["sts"] 600).1) = "infra".
Proof.
  destruct (createServiceAccountToken_request Fixture.grant "ClusterSecretStore"
              "default" Fixture.workload ["sts"] 600) as (_ & _ & _ & _ & H & _).
  apply H; reflexivity.
Defined.

(** * Further properties of the code *)

(** ** json.Number.Int64 *)

Lemma is_digit_digit (c : ascii) :
  strconv.is_digit c = true -> 0 <= strconv.digit c <= 9.
Proof.
  unfold strconv.is_digit, strconv.digit. intros H.
  apply andb_true_iff in H. destruct H as [H1 H2].
  apply Z.leb_le in H1. apply Z.leb_le in H2. lia.
Qed.

Lemma digits_accepts (s : string) (n m : Z) :
  strconv.digits s n = inl m ->
  0 <= n ->
  0 <= m /\ all_digits s = true.
Proof.
  revert n. induction s as [|c s IH]; intros n Hd Hn; simpl in *.
  - injection Hd as ->. split; [exact Hn | reflexivity].
  - destruct (strconv.is_digit c) eqn:Hc; simpl in Hd; [|discriminate].
    destruct (strconv.maxUint64 `div` 10 + 1 <=? n); [discriminate|].
    destruct (strconv.maxUint64 <? n * 10 + strconv.digit c); [discriminate|].
    pose proof (is_digit_digit c Hc) as Hdig.
    destruct (IH _ Hd) as [Hm Hall]; [lia|].
    split; [exact Hm | exact Hall].
Qed.

Lemma ParseUint_accepts (s : string) (un : Z) :
  strconv.ParseUint s = (un, None) ->
  0 <= un /\ s <> "" /\ all_digits s = true.
Proof.
  unfold strconv.ParseUint. destruct s as [|c s]; [discriminate|].
  destruct (strconv.digits (String c s) 0) as [n|[|]] eqn:Hd; try discriminate.
  intros H. injection H as ->.
  destruct (digits_accepts _ _ _ Hd) as [Hn Hall]; [lia|].
  repeat split; [exact Hn | discriminate | exact Hall].
Qed.

Lemma ParseUint_range (s : string) (un : Z) :
  strconv.ParseUint s = (un, Some ErrRange) -> un = strconv.maxUint64.
Proof.
  unfold strconv.ParseUint. destruct s as [|c s]; [discriminate|].
  destruct (strconv.digits (String c s) 0) as [n|[|]]; try discriminate.
  intros H. injection H as <-. reflexivity.
Qed.

(** X1. When [Int64] accepts the text of a number, the value fits in 64
    signed bits and the text is an optional sign followed by one or more
    decimal digits. *)
Theorem Int64_accepts (n : string) (v : Z) :
  Int64 n = (v, None) ->
  - 2 ^ 63 <= v <= 2 ^ 63 - 1 /\
  exists body,
    (n = body \/ n = String "+" body \/ n = String "-" body) /\
    body <> "" /\ all_digits body = true.
Proof.
  unfold Int64, strconv.ParseInt. destruct n as [|c rest]; [discriminate|].
  set (neg := bool_decide (c = "-"%char)).
  set (s := if bool_decide (c = "+"%char) then rest
            else if neg then rest else String c rest).
  destruct (strconv.ParseUint s) as [un [[|]|]] eqn:Hu; cbv zeta;
    try discriminate.
  - rewrite (ParseUint_range _ _ Hu). destruct neg; discriminate.
  - destruct (ParseUint_accepts _ _ Hu) as (Hun & Hne & Hall).
    destruct (negb neg && (2 ^ 63 <=? un)) eqn:Hpos; [discriminate|].
    destruct (neg && (2 ^ 63 <? un)) eqn:Hneg; [discriminate|].
    intros H. injection H as <-.
    split.
    + destruct neg; simpl in Hpos, Hneg.
      * apply Z.ltb_ge in Hneg. lia.
      * apply Z.leb_gt in Hpos. lia.
    + exists s. split; [|split; assumption].
      subst s neg. repeat case_bool_decide; subst; auto.
Qed.

Lemma Int64_accepts_witness :
  - 2 ^ 63 <= 3600 <= 2 ^ 63 - 1 /\
  exists body,
    ("3600" = body \/ "3600" = String "+" body \/ "3600" = String "-" body) /\
    body <> "" /\ all_digits body = true.
Proof. apply (Int64_accepts "3600" 3600). reflexivity. Defined.

(** ** checkToken *)

Section TokenValidatorMore.

Context {W Config : Type} {collab : Collaborators W Config}.

Ltac run_lookup H :=
  unfold lookup_answer in H;
  unfold checkToken, bind, LookupSelf, ObserveAPICall, emit;
  destruct (LookupSelfWithContext _ _ _) as [answer w];
  simpl in H; subst answer; simpl.

(** X2. A lookup that fails makes [checkToken] return [false] and the
    error of the lookup as it is, whatever response came with it; a
    lookup that returns neither a response nor an error makes it return
    the error "no response nor error for token lookup". *)
Theorem checkToken_lookup_failures (c : client W) :
  (forall resp e, lookup_answer c = (resp, Some e) ->
     res (checkToken c) = Val (false, Some e)) /\
  (lookup_answer c = (None, None) ->
     res (checkToken c) =
       Val (false, Some (errors_New "no response nor error for token lookup"))).
Proof.
  split.
  - intros resp e Hl. run_lookup Hl. reflexivity.
  - intros Hl. run_lookup Hl. reflexivity.
Qed.

(** X3. [checkToken] reports a token valid exactly when the lookup
    answered without error with a response whose type is a string other
    than "batch", whose ttl is a number that [Int64] accepts, whose
    [expire_time] field is there, and whose ttl is at least 60 or whose
    expiration time is null. *)
Theorem checkToken_true_iff (c : client W) :
  res (checkToken c) = Val (true, None) <->
  exists resp ty n ttl expireTime,
    lookup_answer c = (Some resp, None) /\
    Data resp !! "type" = Some (VString ty) /\
    ty <> "batch" /\
    Data resp !! "ttl" = Some (VNumber n) /\
    Int64 n = (ttl, None) /\
    Data resp !! "expire_time" = Some expireTime /\
    (60 <= ttl \/ expireTime = VNil).
Proof.
  split.
  - unfold lookup_answer, checkToken, bind, LookupSelf, ObserveAPICall, emit.
    destruct (LookupSelfWithContext _ _ _) as [[resp err] w]. simpl.
    destruct err as [e|]; simpl; [discriminate|].
    destruct resp as [resp|]; simpl; [|discriminate].
    destruct (Data resp !! "type") as [t|] eqn:Hty; simpl; [|discriminate].
    destruct t as [| |?|ty| |]; simpl; try discriminate.
    case_bool_decide as Hnb; simpl; [discriminate|].
    destruct (Data resp !! "ttl") as [ttl|] eqn:Httl; simpl; [|discriminate].
    destruct ttl as [| |n|?| |]; simpl; try discriminate.
    destruct (Int64 n) as [ttlInt [e|]] eqn:Hn; simpl; [discriminate|].
    destruct (Data resp !! "expire_time") as [expireTime|] eqn:Hexp; simpl;
      [|discriminate].
    destruct ((ttlInt <? 60) && not_nil expireTime) eqn:Hb; simpl; [discriminate|].
    intros _. exists resp, ty, n, ttlInt, expireTime.
    repeat split; auto.
    apply andb_false_iff in Hb. destruct Hb as [Hb | Hb].
    + left. apply Z.ltb_ge. exact Hb.
    + right. destruct expireTime; simpl in Hb; congruence.
  - intros (resp & ty & n & ttl & expireTime & Hl & Hty & Hnb & Httl & Hn & Hexp & Hok).
    exact (checkToken_valid c resp ty n ttl expireTime Hl Hty Hnb Httl Hn Hexp Hok).
Qed.

(** X4. For a token that can expire (its type is a string other than
    "batch" and its expiration time is not null) the threshold is exactly
    60 seconds: [checkToken] returns [(true, nil)] when the ttl is 60 or
    more and [(false, nil)] when it is less. *)
Theorem checkToken_threshold (c : client W) (resp : Secret)
    (ty n : string) (ttl : Z) (expireTime : value) :
  lookup_answer c = (Some resp, None) ->
  Data resp !! "type" = Some (VString ty) ->
  ty <> "batch" ->
  Data resp !! "ttl" = Some (VNumber n) ->
  Int64 n = (ttl, None) ->
  Data resp !! "expire_time" = Some expireTime ->
  expireTime <> VNil ->
  res (checkToken c) = Val (bool_decide (60 <= ttl), None).
Proof.
  intros Hl Hty Hnb Httl Hn Hexp Hnil.
  run_lookup Hl. rewrite Hty. simpl.
  rewrite bool_decide_eq_false_2 by exact Hnb.
  rewrite Httl. simpl. rewrite Hn, Hexp. simpl.
  assert (Hnn : not_nil expireTime = true)
    by (destruct expireTime; simpl; congruence).
  rewrite Hnn, andb_true_r.
  case_bool_decide as Hge.
  - assert (Hb : (ttl <? 60) = false) by (apply Z.ltb_ge; exact Hge).
    rewrite Hb. reflexivity.
  - assert (Hb : (ttl <? 60) = true) by (apply Z.ltb_lt; lia).
    rewrite Hb. reflexivity.
Qed.

(** X5. The two type assertions of [checkToken] are unchecked: a [type]
    field that is there but is not a string makes it panic, and so does,
    for a type other than "batch", a [ttl] field that is there but is not
    a [json.Number]. *)
Theorem checkToken_wrong_dynamic_type_panics (c : client W) (resp : Secret) :
  lookup_answer c = (Some resp, None) ->
  (forall t, Data resp !! "type" = Some t -> (forall s, t <> VString s) ->
     res (checkToken c) = Panicked InterfaceConversion) /\
  (forall ty v, Data resp !! "type" = Some (VString ty) -> ty <> "batch" ->
     Data resp !! "ttl" = Some v -> (forall n, v <> VNumber n) ->
     res (checkToken c) = Panicked InterfaceConversion).
Proof.
  intros Hl. run_lookup Hl. split.
  - intros t -> Hnot. destruct t; simpl; try reflexivity.
    exfalso. eapply Hnot. reflexivity.
  - intros ty v -> Hnb -> Hnot. simpl.
    rewrite bool_decide_eq_false_2 by exact Hnb. simpl.
    destruct v; simpl; try reflexivity.
    exfalso. eapply Hnot. reflexivity.
Qed.

(** X6. A ttl that [Int64] rejects (not an integer, or out of range) makes
    [checkToken] return the error "invalid token TTL" that carries the
    text of the ttl and wraps the error of [Int64]; the [expire_time]
    field is not looked at. *)
Theorem checkToken_invalid_ttl (c : client W) (resp : Secret)
    (ty n : string) (v : Z) (e : error) :
  lookup_answer c = (Some resp, None) ->
  Data resp !! "type" = Some (VString ty) ->
  ty <> "batch" ->
  Data resp !! "ttl" = Some (VNumber n) ->
  Int64 n = (v, Some e) ->
  res (checkToken c) =
    Val (false, Some (fmt_Errorf "invalid token TTL: %v: %w" [n] e)).
Proof.
  intros Hl Hty Hnb Httl Hn.
  run_lookup Hl. rewrite Hty. simpl.
  rewrite bool_decide_eq_false_2 by exact Hnb.
  rewrite Httl. simpl. rewrite Hn. reflexivity.
Qed.

(** X7. Every call of [checkToken], whatever it returns and also when it
    panics, makes exactly one lookup, under the namespace and with the
    token of the handle, and reports exactly one observation, the one of
    that lookup with its error; it revokes nothing and leaves the handle
    and the store as they are. *)
Theorem checkToken_observes_once (c : client W) :
  lookups (emitted (checkToken c))
    = [(namespace (handle c), token (handle c))] /\
  observations (emitted (checkToken c))
    = [(CallHCVaultLookupSelf, (lookup_answer c).2)] /\
  revocations (emitted (checkToken c)) = [] /\
  ~ cleared (emitted (checkToken c)) /\
  handle (final (checkToken c)) = handle c /\
  store (final (checkToken c)) = store c.
Proof.
  destruct (checkToken_frame c) as (Hs & Hh & Hev & _).
  rewrite Hev. repeat split; auto.
  unfold cleared. intros H. not_in_trace H.
Qed.

(** X8. [checkToken] never returns an error together with [true]. *)
Theorem checkToken_error_means_not_valid (c : client W) (valid : bool) (e : error) :
  res (checkToken c) = Val (valid, Some e) -> valid = false.
Proof.
  intros H. destruct valid; [|reflexivity].
  destruct (checkToken_frame c) as (_ & _ & _ & Hvalid).
  discriminate (Hvalid _ H).
Qed.

End TokenValidatorMore.

Lemma checkToken_lookup_failures_witness :
  res (checkToken (collab := Fixture.vault) Fixture.newcomer)
    = Val (false, Some (errors_New "missing client token")).
Proof.
  apply (proj1 (checkToken_lookup_failures (collab := Fixture.vault)
                  Fixture.newcomer) None).
  reflexivity.
Defined.

Lemma checkToken_true_iff_witness :
  res (checkToken (collab := Fixture.vault) Fixture.holder) = Val (true, None).
Proof.
  apply (checkToken_true_iff (collab := Fixture.vault) Fixture.holder).
  exists Fixture.fresh, "service", "3600", 3600, (VString "2026-01-01T00:00:00Z").
  repeat split; try reflexivity; try discriminate. left. lia.
Defined.

Lemma checkToken_threshold_witness :
  res (checkToken (collab := Fixture.answering Scenario.minute) Fixture.holder)
    = Val (true, None).
Proof.
  apply (checkToken_threshold (collab := Fixture.answering Scenario.minute)
           Fixture.holder Scenario.minute "service" "60" 60
           (VString "2026-01-01T00:00:00Z"));
    try reflexivity; discriminate.
Defined.

Lemma checkToken_wrong_dynamic_type_panics_witness :
  res (checkToken (collab := Fixture.answering Scenario.odd_type) Fixture.holder)
    = Panicked InterfaceConversion /\
  res (checkToken (collab := Fixture.answering Scenario.odd_ttl) Fixture.holder)
    = Panicked InterfaceConversion.
Proof.
  split.
  - apply (proj1 (checkToken_wrong_dynamic_type_panics
                    (collab := Fixture.answering Scenario.odd_type)
                    Fixture.holder Scenario.odd_type eq_refl) (VNumber "7"));
      [reflexivity | discriminate].
  - apply (proj2 (checkToken_wrong_dynamic_type_panics
                    (collab := Fixture.answering Scenario.odd_ttl)
                    Fixture.holder Scenario.odd_ttl eq_refl)
             "service" (VString "3600"));
      try reflexivity; discriminate.
Defined.

Lemma checkToken_invalid_ttl_witness :
  res (checkToken (collab := Fixture.answering Scenario.fractional_ttl)
         Fixture.holder)
    = Val (false,
           Some (fmt_Errorf "invalid token TTL: %v: %w" ["1.5"]
                   (NumError "ParseInt" "1.5" ErrSyntax))).
Proof.
  apply (checkToken_invalid_ttl
           (collab := Fixture.answering Scenario.fractional_ttl)
           Fixture.holder Scenario.fractional_ttl "service" "1.5" 0);
    try reflexivity; discriminate.
Defined.

Lemma checkToken_error_means_not_valid_witness : false = false.
Proof.
  apply (checkToken_error_means_not_valid (collab := Fixture.vault)
           Fixture.newcomer false (errors_New "missing client token")).
  reflexivity.
Defined.

(** ** revokeTokenIfValid *)

Section RevokerMore.

Context {W Config : Type} {collab : Collaborators W Config}.



(** X11. [revokeTokenIfValid] never moves the namespace of the handle and
    never touches the store. *)
Theorem revokeTokenIfValid_keeps_namespace (c : client W) :
  namespace (handle (final (revokeTokenIfValid c))) = namespace (handle c) /\
  store (final (revokeTokenIfValid c)) = store c.
Proof.
  rewrite revokeTokenIfValid_cases. cbn zeta.
  destruct (checkToken_frame c) as (Hs & Hh & _).
  destruct (res (checkToken c)) as [[[|] [e'|]]|p]; cbn [final];
    try (rewrite Hh, Hs; split; reflexivity).
  destruct (RevokeSelfWithContext _ _ _) as [[e'|] w]; cbn;
    rewrite Hh, Hs; split; reflexivity.
Qed.

End RevokerMore.



(** ** useAuthNamespace *)

Section NamespaceScopeMore.

Context {W Config : Type} {collab : Collaborators W Config}.

(** X12. [useAuthNamespace] never touches the token and returns a
    function that runs without a panic. With an auth namespace that
    differs from the operating namespace the handle is under the auth
    namespace until that function runs. When the handle was under the
    operating namespace on entry, entering the scope and then running the
    function returned gives the client back exactly as it was. *)
Theorem useAuthNamespace_round_trip (c : client W) st :
  store c = Some st ->
  exists restore,
    res (useAuthNamespace c) = Val restore /\
    token (handle (final (useAuthNamespace c))) = token (handle c) /\
    res (restore (final (useAuthNamespace c))) = Val tt /\
    (forall auth authNs,
       VaultProvider.Auth st = Some auth ->
       VaultAuth.Namespace auth = Some authNs ->
       authNs <> operating_namespace st ->
       namespace (handle (final (useAuthNamespace c))) = authNs) /\
    (namespace (handle c) = operating_namespace st ->
       final (restore (final (useAuthNamespace c))) = c).
Proof.
  intros Hst. destruct c as [s [ns tok] w]. simpl in Hst. subst s.
  unfold useAuthNamespace, operating_namespace. cbn [store].
  destruct st as [opNs [[[authNs|]]|]]; cbn [VaultProvider.Auth VaultProvider.Namespace VaultAuth.Namespace].
  - case_bool_decide as Hne.
    + exists (restore_to (match opNs with Some n => n | None => "" end)).
      cbn. repeat split; auto.
      * intros auth authNs' H1 H2 _. injection H1 as <-. cbn in H2. congruence.
      * intros ->. reflexivity.
    + exists no_op. cbn. repeat split; auto.
      intros auth authNs' H1 H2 Hne'. exfalso.
      injection H1 as <-. cbn in H2. injection H2 as <-.
      contradiction.
  - exists no_op. cbn. repeat split; auto. intros auth authNs' H1 H2.
    injection H1 as <-. discriminate H2.
  - exists no_op. cbn. repeat split; auto. discriminate.
Qed.

(** X13. A nil store makes [setAuth] and [useAuthNamespace] panic with a
    nil dereference before they call anything; the nil check at the top
    of [useAuthNamespace] does not protect the read of [c.store.Auth]
    below it. *)
Theorem nil_store_panics (cfg : Config) (c : client W) :
  store c = None ->
  setAuth cfg c
    = {| res := Panicked NilDereference; final := c; emitted := [] |} /\
  useAuthNamespace c
    = {| res := Panicked NilDereference; final := c; emitted := [] |}.
Proof.
  intros Hst. unfold setAuth, useAuthNamespace. rewrite Hst. split; reflexivity.
Qed.

End NamespaceScopeMore.

Lemma useAuthNamespace_round_trip_witness :
  exists restore,
    res (useAuthNamespace Scenario.settled)
      = Val restore /\
    namespace
      (handle (final (useAuthNamespace Scenario.settled)))
      = "login" /\
    final (restore
             (final (useAuthNamespace Scenario.settled)))
      = Scenario.settled.
Proof.
  destruct (useAuthNamespace_round_trip Scenario.settled
              (Fixture.provider (Some "team-a") (Some "login")) eq_refl)
    as (restore & Hres & _ & _ & Hin & Hback).
  exists restore. split; [exact Hres|]. split.
  - apply (Hin {| VaultAuth.Namespace := Some "login" |} "login");
      [reflexivity | reflexivity | discriminate].
  - apply Hback. reflexivity.
Defined.

Lemma nil_store_panics_witness :
  res (setAuth (collab := Fixture.vault) tt Scenario.storeless)
    = Panicked NilDereference.
Proof.
  rewrite (proj1 (nil_store_panics (collab := Fixture.vault) tt
                    Scenario.storeless eq_refl)).
  reflexivity.
Defined.

(** ** createServiceAccountToken, its result *)

(** X14. When the cluster refuses the token request,
    [createServiceAccountToken] returns the empty string and the error
    "cannot request Kubernetes service account token" that names the
    service account and wraps the error of the cluster; when the cluster
    grants it, the token of the response and no error. *)
Theorem createServiceAccountToken_result
    (CreateToken : string -> string -> TokenRequest.t ->
                   option TokenRequest.t * option error)
    (storeKind namespace : string) (serviceAccountRef : ServiceAccountSelector.t)
    (additionalAud : list string) (expirationSeconds : Z) :
  let run :=
    createServiceAccountToken CreateToken storeKind namespace serviceAccountRef
      additionalAud expirationSeconds in
  let answer :=
    CreateToken (call_namespace run.1) (call_name run.1) (call_request run.1) in
  (forall e, answer.2 = Some e ->
     run.2 = Val ("", Some (fmt_Errorf errGetKubeSATokenRequest
                              [ServiceAccountSelector.Name serviceAccountRef] e))) /\
  (forall response, answer = (Some response, None) ->
     run.2 = Val (TokenRequest.Token response, None)).
Proof.
  cbn zeta. unfold createServiceAccountToken.
  match goal with
  | |- context [match CreateToken ?a ?b ?c with pair _ _ => _ end] =>
      destruct (CreateToken a b c) as [tokenResponse err] eqn:Hcall
  end.
  cbn [fst snd call_namespace call_name call_request].
  rewrite Hcall. cbn [fst snd]. split.
  - intros e ->. reflexivity.
  - intros response H. injection H as -> ->. reflexivity.
Qed.

Lemma createServiceAccountToken_result_witness :
  (createServiceAccountToken Scenario.deny "SecretStore" "default"
     Fixture.workload [] 600).2
    = Val ("", Some (fmt_Errorf errGetKubeSATokenRequest ["vault-auth"]
                       (errors_New "serviceaccounts not found"))).
Proof.
  apply (proj1 (createServiceAccountToken_result Scenario.deny "SecretStore"
                  "default" Fixture.workload [] 600)).
  reflexivity.
Defined.

(** X15. The audiences of the request are the audiences of the reference
    followed by the additional ones, in that order; an audience given on
    both sides is sent twice. *)
Theorem createServiceAccountToken_audiences_in_order
    (CreateToken : string -> string -> TokenRequest.t ->
                   option TokenRequest.t * option error)
    (storeKind namespace : string) (serviceAccountRef : ServiceAccountSelector.t)
    (additionalAud : list string) (expirationSeconds : Z) :
  TokenRequest.Audiences
    (call_request
       (createServiceAccountToken CreateToken storeKind namespace
          serviceAccountRef additionalAud expirationSeconds).1)
    = ServiceAccountSelector.Audiences serviceAccountRef ++ additionalAud.
Proof.
  unfold createServiceAccountToken.
  destruct (CreateToken _ _ _) as [tokenResponse err].
  cbn [fst call_request].
  assert (Haud :
    (if (0 <? length additionalAud)%nat
     then ServiceAccountSelector.Audiences serviceAccountRef ++ additionalAud
     else ServiceAccountSelector.Audiences serviceAccountRef)
    = ServiceAccountSelector.Audiences serviceAccountRef ++ additionalAud).
  { destruct additionalAud; simpl; [rewrite app_nil_r|]; reflexivity. }
  case_bool_decide;
    destruct (ServiceAccountSelector.Namespace serviceAccountRef);
    cbn [TokenRequest.Audiences]; exact Haud.
Qed.

Example createServiceAccountToken_repeats_audience :
  TokenRequest.Audiences
    (call_request
       (createServiceAccountToken Fixture.grant "SecretStore" "default"
          Scenario.repeated ["sts"] 600).1)
    = ["vault"; "sts"; "sts"].
Proof. reflexivity. Qed.

(** ** setAuth, beyond the chain *)

Lemma lookups_app (xs ys : list event) :
  lookups (xs ++ ys) = lookups xs ++ lookups ys.
Proof. apply omap_app. Qed.

Lemma observations_app (xs ys : list event) :
  observations (xs ++ ys) = observations xs ++ observations ys.
Proof. apply omap_app. Qed.

Lemma revocations_app (xs ys : list event) :
  revocations (xs ++ ys) = revocations xs ++ revocations ys.
Proof. apply omap_app. Qed.

Lemma lookups_deferred (evs : list event) :
  lookups (EvRunDeferred :: evs) = lookups evs.
Proof. reflexivity. Qed.

Lemma observations_deferred (evs : list event) :
  observations (EvRunDeferred :: evs) = observations evs.
Proof. reflexivity. Qed.

Lemma revocations_deferred (evs : list event) :
  revocations (EvRunDeferred :: evs) = revocations evs.
Proof. reflexivity. Qed.

Lemma reports_deferred (evs : list event) :
  reports (EvRunDeferred :: evs) = reports evs.
Proof. reflexivity. Qed.

(** An event other than the mark of the deferred call is in the trace of
    a scoped run when it is in one of its three parts. *)
Lemma elem_of_scoped (e : event) (pre body post : list event) :
  e <> EvRunDeferred ->
  e ∈ pre ++ body ++ EvRunDeferred :: post <-> e ∈ pre \/ e ∈ body \/ e ∈ post.
Proof.
  intros Hne. rewrite !elem_of_app, elem_of_cons. intuition congruence.
Qed.

Section OrchestratorMore.

Context {W Config : Type} {collab : Collaborators W Config}.

Lemma walk_silent (cfg : Config) (ms : list mechanism) (c : client W) st :
  store c = Some st ->
  lookups (emitted (walk cfg ms c)) = [] /\
  observations (emitted (walk cfg ms c)) = [] /\
  revocations (emitted (walk cfg ms c)) = [] /\
  ~ cleared (emitted (walk cfg ms c)).
Proof.
  revert c. induction ms as [|m ms IH]; intros c Hst.
  - simpl. repeat split. unfold cleared. apply not_elem_of_nil.
  - destruct (strategy_of cfg m st (namespace (handle c)) (token (handle c)) (world c))
      as [[attempted err] [tok w]] eqn:Hf.
    rewrite (walk_step cfg m ms c st attempted err tok w Hst Hf).
    destruct attempted; cbn [emitted].
    + repeat split. unfold cleared. intros H. not_in_trace H.
    + match goal with
      | |- context [walk cfg ms ?c'] =>
          destruct (IH c') as (Hl & Ho & Hr & Hc); [exact Hst|]
      end.
      repeat split; auto.
      unfold cleared in *. rewrite elem_of_cons.
      intros [H | H]; [discriminate | exact (Hc H)].
Qed.

(** After a strategy that reported an attempt the walk logs its message,
    whatever the error. *)
Lemma walk_logs_attempt (cfg : Config) (ms : list mechanism) (c : client W) st :
  store c = Some st ->
  forall m err, (m, true, err) ∈ reports (emitted (walk cfg ms c)) ->
    EvLogInfo (acquired_message m) [] ∈ emitted (walk cfg ms c).
Proof.
  revert c. induction ms as [|m0 ms IH]; intros c Hst m err Hin.
  - simpl in Hin. apply elem_of_nil in Hin. contradiction.
  - destruct (strategy_of cfg m0 st (namespace (handle c)) (token (handle c)) (world c))
      as [[attempted err0] [tok w]] eqn:Hf.
    rewrite (walk_step cfg m0 ms c st attempted err0 tok w Hst Hf) in Hin |- *.
    destruct attempted; cbn [emitted] in Hin |- *.
    + apply list_elem_of_singleton in Hin. injection Hin as -> _.
      apply list_elem_of_further, list_elem_of_here.
    + rewrite reports_cons in Hin. cbn [report_of] in Hin.
      apply elem_of_cons in Hin. destruct Hin as [Hin | Hin]; [discriminate|].
      apply list_elem_of_further. eapply IH; [exact Hst | exact Hin].
Qed.

Lemma restore_silent (restore : M W unit) (ns : string) (c : client W) :
  restore = no_op \/ restore = restore_to ns ->
  lookups (emitted (restore c)) = [] /\
  observations (emitted (restore c)) = [] /\
  revocations (emitted (restore c)) = [] /\
  ~ cleared (emitted (restore c)).
Proof.
  intros [-> | ->]; cbn; repeat split; unfold cleared; intros H; not_in_trace H.
Qed.

(** Lines 50 to 55 once more, with everything the trace of the entry does
    not contain. *)
Lemma enter_scope_silent (c : client W) st auth :
  store c = Some st ->
  VaultProvider.Auth st = Some auth ->
  exists pre restore,
    bind
      match VaultProvider.Namespace st with
      | Some ns => SetNamespace ns
      | None => ret tt
      end
      (fun _ => useAuthNamespace) c
    = {| res := Val restore; final := entered st c; emitted := pre |} /\
    (restore = no_op \/ restore = restore_to (operating_namespace st)) /\
    reports pre = [] /\ lookups pre = [] /\ observations pre = [] /\
    revocations pre = [] /\ ~ cleared pre /\ ~ reused pre.
Proof.
  intros Hst Hauth.
  destruct c as [s [ns tok] w]. simpl in Hst. subst s.
  unfold bind, useAuthNamespace, entered, login_namespace, operating_namespace.
  destruct st as [opNs a]. simpl in Hauth. subst a.
  destruct auth as [authNs]. simpl.
  destruct opNs as [opNs|]; destruct authNs as [authNs|]; simpl;
    try case_bool_decide; simpl;
    eexists _, _; (split; [reflexivity|]);
    (split; [auto|]); repeat split;
    unfold cleared, reused; intros Hin; not_in_trace Hin.
Qed.

Lemma setAuth_unfolded (cfg : Config) (c : client W) st auth :
  store c = Some st ->
  VaultProvider.Auth st = Some auth ->
  exists pre restore,
    let o := negotiate cfg (entered st c) in
    setAuth cfg c =
      {| res := res o;
         final := final (restore (final o));
         emitted := pre ++ emitted o ++ EvRunDeferred :: emitted (restore (final o)) |} /\
    (restore = no_op \/ restore = restore_to (operating_namespace st)) /\
    reports pre = [] /\ lookups pre = [] /\ observations pre = [] /\
    revocations pre = [] /\ ~ cleared pre /\ ~ reused pre.
Proof.
  intros Hst Hauth.
  destruct (enter_scope_silent c st auth Hst Hauth)
    as (pre & restore & Heq & Hrest & Hfacts).
  exists pre, restore. cbn zeta. split; [|split; [exact Hrest | exact Hfacts]].
  rewrite setAuth_walks_priority, Hst, Hauth, bind_assoc.
  rewrite (bind_val _ _ _ _ _ _ Heq).
  assert (Hres : res (restore (final (negotiate cfg (entered st c)))) = Val tt).
  { destruct Hrest as [-> | ->]; reflexivity. }
  unfold defer. rewrite bind_unfold. cbn [emit res final emitted].
  rewrite Hres. reflexivity.
Qed.

End OrchestratorMore.

Section OrchestratorExtras.

Context {W Config : Type} {collab : Collaborators W Config}.

(** The four ways [negotiate] can go. *)
Lemma negotiate_branches (cfg : Config) (c : client W) :
  let o := negotiate cfg c in
  let k := checkToken c in
  (token (handle c) <> "" /\
   res k = Val (true, None) /\ res o = Val None /\ final o = final k /\
   emitted o = emitted k ++ [EvLogInfo "Re-using existing token" []])
  \/
  (token (handle c) <> "" /\
   exists p, res k = Panicked p /\ res o = Panicked p /\ final o = final k /\
             emitted o = emitted k)
  \/
  (token (handle c) <> "" /\
   exists err, res k = Val (false, err) /\
     res o = res (walk cfg priority (final k)) /\
     final o = final (walk cfg priority (final k)) /\
     emitted o = emitted k ++ emitted (walk cfg priority (final k)))
  \/
  (token (handle c) = "" /\
   res o = res (walk cfg priority c) /\
   final o = final (walk cfg priority c) /\
   emitted o = emitted (walk cfg priority c)).
Proof.
  cbn zeta. rewrite negotiate_cases.
  destruct (checkToken_frame c) as (_ & _ & _ & Hvalid).
  case_bool_decide as Htok.
  - cbn zeta. destruct (res (checkToken c)) as [[[|] err]|p] eqn:Hk.
    + left. rewrite (Hvalid err eq_refl). auto.
    + right. right. left. split; [exact Htok|]. exists err. auto.
    + right. left. split; [exact Htok|]. exists p. auto.
  - right. right. right. split; [|auto].
    destruct (decide (token (handle c) = "")); [assumption | contradiction].
Qed.

(** X16. With auth configured [setAuth] looks the token up at most once:
    not at all when the handle holds no token, and otherwise once, under
    the namespace it logs in under and with the token held, reporting
    that one lookup to the metrics. It never revokes a token and never
    clears the credential. *)
Theorem setAuth_lookups (cfg : Config) (c : client W) st auth :
  store c = Some st ->
  VaultProvider.Auth st = Some auth ->
  let o := setAuth cfg c in
  lookups (emitted o) =
    (if bool_decide (token (handle c) <> "")
     then [(login_namespace st (handle c), token (handle c))] else []) /\
  observations (emitted o) =
    (if bool_decide (token (handle c) <> "")
     then [(CallHCVaultLookupSelf, (lookup_answer (entered st c)).2)] else []) /\
  revocations (emitted o) = [] /\
  ~ cleared (emitted o).
Proof.
  intros Hst Hauth. cbn zeta.
  destruct (setAuth_unfolded cfg c st auth Hst Hauth)
    as (pre & restore & Heq & Hrest & _ & Hl & Ho & Hr & Hc & _).
  cbn zeta in Heq. rewrite Heq. cbn [emitted].
  destruct (restore_silent restore _ (final (negotiate cfg (entered st c))) Hrest)
    as (Hl' & Ho' & Hr' & Hc').
  assert (Hst1 : store (entered st c) = Some st) by exact Hst.
  destruct (checkToken_frame (entered st c)) as (Hs & _ & Hev & _).
  assert (Hst2 : store (final (checkToken (entered st c))) = Some st) by congruence.
  destruct (walk_silent cfg priority _ st Hst1) as (Hwl & Hwo & Hwr & Hwc).
  destruct (walk_silent cfg priority _ st Hst2) as (Hkl & Hko & Hkr & Hkc).
  unfold cleared in *.
  rewrite (elem_of_scoped EvClearToken) by discriminate.
  rewrite !lookups_app, !observations_app, !revocations_app,
    lookups_deferred, observations_deferred, revocations_deferred,
    Hl, Ho, Hr, Hl', Ho', Hr', !app_nil_r. cbn [app].
  change (token (handle (entered st c))) with (token (handle c)) in *.
  destruct (negotiate_branches cfg (entered st c))
    as [(Htok & _ & _ & _ & He) | [(Htok & p & _ & _ & _ & He)
       | [(Htok & err & _ & _ & _ & He) | (Htok & _ & _ & He)]]];
    cbn zeta in He; rewrite He;
    change (token (handle (entered st c))) with (token (handle c)) in Htok.
  - rewrite bool_decide_eq_true_2 by exact Htok.
    rewrite lookups_app, observations_app, revocations_app, Hev.
    repeat split.
    intros [H | [H | H]]; [exact (Hc H) | not_in_trace H | exact (Hc' H)].
  - rewrite bool_decide_eq_true_2 by exact Htok. rewrite Hev.
    repeat split.
    intros [H | [H | H]]; [exact (Hc H) | not_in_trace H | exact (Hc' H)].
  - rewrite bool_decide_eq_true_2 by exact Htok.
    rewrite lookups_app, observations_app, revocations_app, Hkl, Hko, Hkr, Hev.
    repeat split.
    intros [H | [H | H]]; [exact (Hc H) | | exact (Hc' H)].
    apply elem_of_app in H. destruct H as [H | H]; [not_in_trace H | exact (Hkc H)].
  - rewrite bool_decide_eq_false_2 by (intros Hne; exact (Hne Htok)).
    rewrite Hwl, Hwo, Hwr. repeat split.
    intros [H | [H | H]]; [exact (Hc H) | exact (Hwc H) | exact (Hc' H)].
Qed.

(** X17. When the validation of the token held does not report it valid,
    an error of the lookup included, [setAuth] drops what [checkToken]
    returned and goes on to the chain: the strategy functions are applied
    in the fixed order, under the login namespace, starting from the
    token held and the world the lookup has left; [setAuth] returns the
    error of the first that reports an attempt (or the terminal error),
    and the secret-reference strategy is applied first. *)
Theorem setAuth_validation_error_falls_through (cfg : Config) (c : client W)
    st auth (err : option error) :
  store c = Some st ->
  VaultProvider.Auth st = Some auth ->
  token (handle c) <> "" ->
  res (checkToken (entered st c)) = Val (false, err) ->
  exists r,
    res (setAuth cfg c) = Val r /\
    chain_calls cfg st (login_namespace st (handle c)) priority
      (token (handle c),
       (LookupSelfWithContext
          (login_namespace st (handle c)) (token (handle c)) (world c)).2)
      (reports (emitted (setAuth cfg c))) r
      (token (handle (final (setAuth cfg c))), world (final (setAuth cfg c))) /\
    exists attempted err' s',
      setSecretKeyToken st (login_namespace st (handle c)) (token (handle c))
        (LookupSelfWithContext
           (login_namespace st (handle c)) (token (handle c)) (world c)).2
        = ((attempted, err'), s') /\
      reports (emitted (setAuth cfg c)) !! 0%nat = Some (SecretKey, attempted, err').
Proof.
  intros Hst Hauth Htok Hk.
  destruct (setAuth_chain_calls cfg c st auth Hst Hauth (or_intror (ex_intro _ err Hk)))
    as (r & Hres & Hcalls).
  unfold chain_entry_world in Hcalls.
  rewrite bool_decide_eq_true_2 in Hcalls by exact Htok.
  exists r. split; [exact Hres|]. split; [exact Hcalls|].
  unfold priority in Hcalls.
  inversion Hcalls as [| m ms tok w e1 s' Hcall
                       | m ms tok w e1 tok1 w1 calls1 r1 s'' Hcall Hrest]; subst;
    cbn [strategy_of] in Hcall; eauto 6.
Qed.

(** X18. A panic of [checkToken] goes through [setAuth]: it panics in the
    same way and calls no strategy. *)
Theorem setAuth_panic_propagates (cfg : Config) (c : client W) st auth (p : panic) :
  store c = Some st ->
  VaultProvider.Auth st = Some auth ->
  token (handle c) <> "" ->
  res (checkToken (entered st c)) = Panicked p ->
  res (setAuth cfg c) = Panicked p /\
  reports (emitted (setAuth cfg c)) = [].
Proof.
  intros Hst Hauth Htok Hk.
  destruct (setAuth_unfolded cfg c st auth Hst Hauth)
    as (pre & restore & Heq & Hrest & Hp & _).
  cbn zeta in Heq. rewrite Heq. cbn [res emitted].
  destruct (restore_run restore _ (final (negotiate cfg (entered st c))) Hrest)
    as (_ & Hp' & _).
  rewrite !reports_app, reports_deferred, Hp, Hp', app_nil_r. cbn [app].
  destruct (checkToken_frame (entered st c)) as (_ & _ & Hev & _).
  destruct (negotiate_branches cfg (entered st c))
    as [(_ & Hk' & _) | [(_ & p' & Hk' & Hr & _ & He)
       | [(_ & err' & Hk' & _) | (Htok' & _)]]].
  - congruence.
  - cbn zeta in Hr, He. rewrite Hr, He, Hev. split; [congruence | reflexivity].
  - congruence.
  - contradiction.
Qed.

(** X19. [setAuth] calls no strategy twice, so at most eight calls in a
    run. *)
Theorem setAuth_calls_each_strategy_once (cfg : Config) (c : client W) :
  NoDup (mechanism_of <$> reports (emitted (setAuth cfg c))) /\
  (length (reports (emitted (setAuth cfg c))) <= 8)%nat.
Proof.
  destruct (setAuth_trace cfg c) as [[Hnil _] | (r & Hrun & _)];
    cbn zeta in *.
  - rewrite Hnil. split; [apply NoDup_nil_2 | simpl; lia].
  - pose proof (chain_run_prefix _ _ _ Hrun) as Hpre. split.
    + destruct Hpre as [rest Hrest].
      assert (Hnd : NoDup priority) by (unfold priority; apply NoDup_ListNoDup;
        repeat constructor; simpl; intuition discriminate).
      rewrite Hrest in Hnd. apply NoDup_app in Hnd. tauto.
    + apply prefix_length in Hpre. rewrite length_fmap in Hpre. exact Hpre.
Qed.

(** X20. Whenever a strategy reports an attempt, [setAuth] logs the
    message of that mechanism ("Retrieved new token using ...") and
    returns the error of the strategy: the message is logged also when
    the attempt failed. *)
Theorem setAuth_logs_attempt (cfg : Config) (c : client W)
    (m : mechanism) (err : option error) :
  (m, true, err) ∈ reports (emitted (setAuth cfg c)) ->
  EvLogInfo (acquired_message m) [] ∈ emitted (setAuth cfg c) /\
  res (setAuth cfg c) = Val err.
Proof.
  intros Hin. split.
  - destruct (store c) as [st|] eqn:Hst.
    2:{ rewrite setAuth_walks_priority, Hst in Hin. cbn in Hin.
        apply elem_of_nil in Hin. contradiction. }
    destruct (VaultProvider.Auth st) as [auth|] eqn:Hauth.
    2:{ rewrite setAuth_walks_priority, Hst, Hauth in Hin. cbn in Hin.
        apply elem_of_nil in Hin. contradiction. }
    destruct (setAuth_unfolded cfg c st auth Hst Hauth)
      as (pre & restore & Heq & Hrest & Hp & _).
    cbn zeta in Heq. rewrite Heq in Hin |- *. cbn [emitted] in Hin |- *.
    destruct (restore_run restore _ (final (negotiate cfg (entered st c))) Hrest)
      as (_ & Hp' & _).
    rewrite !reports_app, reports_deferred, Hp, Hp', app_nil_r in Hin.
    cbn [app] in Hin.
    apply elem_of_scoped; [discriminate|]. right. left.
    assert (Hst1 : store (entered st c) = Some st) by exact Hst.
    destruct (checkToken_frame (entered st c)) as (Hs & _ & Hev & _).
    assert (Hst2 : store (final (checkToken (entered st c))) = Some st) by congruence.
    destruct (negotiate_branches cfg (entered st c))
      as [(_ & _ & _ & _ & He) | [(_ & p & _ & _ & _ & He)
         | [(_ & err' & _ & _ & _ & He) | (_ & _ & _ & He)]]];
      cbn zeta in He; rewrite He in Hin |- *.
    + rewrite reports_app, Hev in Hin. cbn in Hin.
      apply elem_of_nil in Hin. contradiction.
    + rewrite Hev in Hin. cbn in Hin. apply elem_of_nil in Hin. contradiction.
    + rewrite reports_app, Hev in Hin. cbn [reports omap app report_of] in Hin.
      change (omap report_of ?l) with (reports l) in Hin.
      apply elem_of_app. right.
      exact (walk_logs_attempt cfg priority _ st Hst2 m err Hin).
    + exact (walk_logs_attempt cfg priority _ st Hst1 m err Hin).
  - destruct (setAuth_trace cfg c) as [[Hnil _] | (r & Hrun & Hres & _)];
      cbn zeta in *.
    + rewrite Hnil in Hin. apply elem_of_nil in Hin. contradiction.
    + apply list_elem_of_lookup in Hin. destruct Hin as [i Hi].
      destruct (chain_run_attempted _ _ _ _ _ _ Hrun Hi) as [_ ->].
      exact Hres.
Qed.

(** X21. A run of [setAuth] that re-uses the token held returns nil,
    calls no strategy and leaves the token of the handle as it was. *)
Theorem setAuth_reuse_keeps_credential (cfg : Config) (c : client W) :
  reused (emitted (setAuth cfg c)) ->
  res (setAuth cfg c) = Val None /\
  reports (emitted (setAuth cfg c)) = [] /\
  token (handle (final (setAuth cfg c))) = token (handle c) /\
  token (handle c) <> "".
Proof.
  intros Hin.
  destruct (store c) as [st|] eqn:Hst.
  2:{ rewrite setAuth_walks_priority, Hst in Hin. cbn in Hin.
      apply elem_of_nil in Hin. contradiction. }
  destruct (VaultProvider.Auth st) as [auth|] eqn:Hauth.
  2:{ rewrite setAuth_walks_priority, Hst, Hauth in Hin. cbn in Hin.
      apply elem_of_nil in Hin. contradiction. }
  destruct (setAuth_unfolded cfg c st auth Hst Hauth)
    as (pre & restore & Heq & Hrest & Hp & _ & _ & _ & _ & Hu).
  cbn zeta in Heq. rewrite Heq in Hin |- *. cbn [res final emitted] in Hin |- *.
  destruct (restore_run restore _ (final (negotiate cfg (entered st c))) Hrest)
    as (_ & Hp' & _ & Hu' & _ & Htok').
  rewrite !reports_app, reports_deferred, Hp, Hp', app_nil_r. cbn [app].
  rewrite Htok'.
  unfold reused in Hin, Hu, Hu'.
  apply elem_of_scoped in Hin; [|discriminate].
  destruct Hin as [Hin | [Hin | Hin]]; [contradiction | | contradiction].
  assert (Hst1 : store (entered st c) = Some st) by exact Hst.
  destruct (checkToken_frame (entered st c)) as (Hs & Hh & Hev & _).
  assert (Hst2 : store (final (checkToken (entered st c))) = Some st) by congruence.
  destruct (walk_run cfg priority _ st Hst1) as (_ & _ & _ & _ & _ & _ & Hw1).
  destruct (walk_run cfg priority _ st Hst2) as (_ & _ & _ & _ & _ & _ & Hw2).
  unfold reused in Hw1, Hw2.
  destruct (negotiate_branches cfg (entered st c))
    as [(Htok & _ & Hr & Hf & He) | [(_ & p & _ & _ & _ & He)
       | [(_ & err' & _ & _ & _ & He) | (_ & _ & _ & He)]]];
    cbn zeta in *; rewrite He in Hin |- *.
  - rewrite Hr, Hf, Hh, reports_app, Hev. repeat split. exact Htok.
  - exfalso. rewrite Hev in Hin. not_in_trace Hin.
  - exfalso. apply elem_of_app in Hin. destruct Hin as [Hin | Hin];
      [rewrite Hev in Hin; not_in_trace Hin | exact (Hw2 Hin)].
  - exfalso. exact (Hw1 Hin).
Qed.

End OrchestratorExtras.

Lemma setAuth_lookups_witness :
  lookups (emitted (setAuth (collab := Fixture.vault) tt Fixture.holder))
    = [("login", "s.held")] /\
  lookups (emitted (setAuth (collab := Fixture.vault) tt Fixture.newcomer)) = [].
Proof.
  split.
  - apply (setAuth_lookups (collab := Fixture.vault) tt Fixture.holder
             (Fixture.provider (Some "team-a") (Some "login"))
             {| VaultAuth.Namespace := Some "login" |} eq_refl eq_refl).
  - apply (setAuth_lookups (collab := Fixture.vault) tt Fixture.newcomer
             (Fixture.provider None None)
             {| VaultAuth.Namespace := None |} eq_refl eq_refl).
Defined.

Lemma setAuth_validation_error_falls_through_witness :
  exists r,
    res (setAuth (collab := Scenario.unreachable) tt Fixture.holder) = Val r /\
    chain_calls (collab := Scenario.unreachable) tt
      (Fixture.provider (Some "team-a") (Some "login")) "login" priority
      ("s.held", tt)
      (reports (emitted (setAuth (collab := Scenario.unreachable) tt Fixture.holder)))
      r
      (token (handle (final (setAuth (collab := Scenario.unreachable) tt
                               Fixture.holder))),
       world (final (setAuth (collab := Scenario.unreachable) tt Fixture.holder))).
Proof.
  destruct (setAuth_validation_error_falls_through (collab := Scenario.unreachable)
              tt Fixture.holder
              (Fixture.provider (Some "team-a") (Some "login"))
              {| VaultAuth.Namespace := Some "login" |}
              (Some (errors_New "connection refused")) eq_refl eq_refl)
    as (r & Hres & Hcalls & _); [discriminate | reflexivity |].
  exists r. split; [exact Hres | exact Hcalls].
Defined.

(** The lookup fails and AppRole logs in: [setAuth] returns nil. *)
Example setAuth_unreachable_lookup_succeeds :
  res (setAuth (collab := Scenario.unreachable) tt Fixture.holder) = Val None.
Proof. reflexivity. Qed.

Lemma setAuth_panic_propagates_witness :
  res (setAuth (collab := Fixture.answering Scenario.odd_type) tt Fixture.holder)
    = Panicked InterfaceConversion /\
  reports
    (emitted (setAuth (collab := Fixture.answering Scenario.odd_type) tt
                Fixture.holder)) = [].
Proof.
  apply (setAuth_panic_propagates (collab := Fixture.answering Scenario.odd_type)
           tt Fixture.holder
           (Fixture.provider (Some "team-a") (Some "login"))
           {| VaultAuth.Namespace := Some "login" |});
    try reflexivity; discriminate.
Defined.

Lemma setAuth_logs_attempt_witness :
  EvLogInfo "Retrieved new token using AppRole auth" []
    ∈ emitted (setAuth (collab := Scenario.refusing) tt Fixture.newcomer) /\
  res (setAuth (collab := Scenario.refusing) tt Fixture.newcomer)
    = Val (Some (errors_New "invalid role or secret ID")).
Proof.
  apply (setAuth_logs_attempt (collab := Scenario.refusing) tt Fixture.newcomer
           AppRole (Some (errors_New "invalid role or secret ID"))).
  vm_compute. apply list_elem_of_further, list_elem_of_here.
Defined.

Lemma setAuth_reuse_keeps_credential_witness :
  res (setAuth (collab := Fixture.vault) tt Fixture.holder) = Val None /\
  reports (emitted (setAuth (collab := Fixture.vault) tt Fixture.holder)) = [] /\
  token (handle (final (setAuth (collab := Fixture.vault) tt Fixture.holder)))
    = token (handle Fixture.holder) /\
  token (handle Fixture.holder) <> "".
Proof.
  apply (setAuth_reuse_keeps_credential (collab := Fixture.vault) tt Fixture.holder).
  unfold reused. vm_compute. do 5 apply list_elem_of_further.
  apply list_elem_of_here.
Defined.
